(** * Tab session controller of the MCP browser server

    A shallow embedding of [packages/playwright/src/mcp/browser/tab.ts]
    and of the body rendering of
    [packages/playwright/src/mcp/browser/tools/network.ts].

    Conventions of the embedding.
    - A JavaScript string is a [string] of 8-bit code units (the Latin-1
      range of UTF-16); [length], [substring] and [includes] count code
      units, as in JavaScript.
    - The event loop is modelled at the granularity of macrotasks: one
      event (a page event, or the settling of an awaited browser
      round-trip) is processed together with the promise reactions it
      triggers before the next event is looked at.
    - Objects that the source mutates in place and shares (the records of
      the network journal) live in an explicit store; arrays that are only
      re-pointed (the console journals) are plain lists. *)

From Stdlib Require Import Ascii.
From stdpp Require Import base list strings.

(** ** JavaScript strings *)

Module Js.

(** [s.startsWith(p)] *)
Fixpoint startsWith (s p : string) {struct p} : bool :=
  match p, s with
  | EmptyString, _ => true
  | String _ _, EmptyString => false
  | String c p', String d s' => Ascii.eqb c d && startsWith s' p'
  end.

(** [s.includes(p)]: [p] occurs in [s] as a contiguous run of code units. *)
Fixpoint includes (s p : string) : bool :=
  startsWith s p ||
  match s with
  | EmptyString => false
  | String _ s' => includes s' p
  end.

(** [String.prototype.toLowerCase] on one code unit of the Latin-1 range:
    A-Z and the accented capitals U+00C0..U+00DE (the multiplication sign
    U+00D7 apart) move up by 32, everything else is kept. *)
Definition lowerUnit (c : ascii) : ascii :=
  let n := nat_of_ascii c in
  if (65 <=? n) && (n <=? 90) then ascii_of_nat (n + 32)
  else if (192 <=? n) && (n <=? 222) && negb (n =? 215) then ascii_of_nat (n + 32)
  else c.

Fixpoint toLowerCase (s : string) : string :=
  match s with
  | EmptyString => EmptyString
  | String c s' => String (lowerUnit c) (toLowerCase s')
  end.

(** [s.substring(0, n)] *)
Fixpoint substring0 (n : nat) (s : string) : string :=
  match n, s with
  | 0, _ => EmptyString
  | S _, EmptyString => EmptyString
  | S n', String c s' => String c (substring0 n' s')
  end.

(** The relation that [includes] decides. *)
Definition occursIn (p s : string) : Prop :=
  ∃ a b, s = a +:+ p +:+ b.

(** Occurrence up to letter case: some run of [s] lower-cases to [p]. *)
Definition occursInIgnoringCase (p s : string) : Prop :=
  ∃ a q b, s = a +:+ q +:+ b ∧ toLowerCase q = p.

End Js.

(** ** Console journal *)

(** [ConsoleMessage]: [toString] is a closure over immutable data in the
    source, so its result is stored. *)
Record ConsoleMessage := {
  cm_type : option string;
  cm_text : string;
  cm_toString : string
}.

Definition nextJsPatterns : list string :=
  [ "_next/static/";
    "webpack-hmr";
    "hot-update";
    "[hmr]";
    "[fast refresh]";
    "webpack://";
    "static/chunks/";
    "static/css/";
    "static/media/" ].

(** The [for (const pattern of nextJsPatterns)] loop of
    [_shouldCaptureConsoleMessage], with its early [return false]. *)
Fixpoint scanPatterns (text location : string) (patterns : list string) : bool :=
  match patterns with
  | [] => true
  | pattern :: rest =>
      if Js.includes text pattern || Js.includes location pattern
      then false
      else scanPatterns text location rest
  end.

Definition _shouldCaptureConsoleMessage (message : ConsoleMessage) : bool :=
  let text := Js.toLowerCase (cm_text message) in
  let location := Js.toLowerCase (cm_toString message) in
  scanPatterns text location nextJsPatterns.

(** ** Network journal *)

(** [NetworkRequestData.status] *)
Inductive Status := pending | finished | failed.

(** What [request.failure()] returns when it is not [null]. *)
Record Failure := { errorText : string }.

(** The parts of a [playwright.Request] that the tab and the renderer read.
    A request object changes over its life ([failure()] is [null] until the
    request has failed), so an event carries the request as it is when the
    event is delivered. *)
Record Request := {
  rq_url : string;
  rq_method : string;
  rq_resourceType : string;
  rq_failure : option Failure
}.

(** A promise of the browser driver seen on the time line of its caller:
    it fulfils or rejects some milliseconds after it was started, or it never
    settles. *)
Inductive Outcome (A : Type) :=
| fulfils (ms : nat) (value : A)
| rejects (ms : nat) (message : string)
| never.
Arguments fulfils {A} ms value.
Arguments rejects {A} ms message.
Arguments never {A}.

(** A parsed JSON document, as [response.json()] yields it. *)
#[local] Unset Elimination Schemes.
Inductive Json :=
| JNull
| JBool (b : bool)
| JNumber (n : Z)
| JString (s : string)
| JArray (items : list Json)
| JObject (fields : list (string * Json)).
#[local] Set Elimination Schemes.

(** The parts of a [playwright.Response] that are read. *)
Record Response := {
  rs_url : string;
  rs_status : nat;
  rs_headers : list (string * string);
  rs_json : Outcome Json;
  rs_text : Outcome string
}.

Record NetworkRequestData := {
  request : Request;
  response : option Response;
  status : Status;
  error : option string
}.

(** A JavaScript [Map] with string keys: insertion ordered, [set] on a key
    that is present replaces the value and keeps the position of the key. *)
Fixpoint map_get {V} (k : string) (m : list (string * V)) : option V :=
  match m with
  | [] => None
  | (k', v) :: m' => if decide (k = k') then Some v else map_get k m'
  end.

Fixpoint map_set {V} (k : string) (v : V) (m : list (string * V)) : list (string * V) :=
  match m with
  | [] => [(k, v)]
  | (k', v') :: m' =>
      if decide (k = k') then (k, v) :: m' else (k', v') :: map_set k v m'
  end.

Definition map_values {V} (m : list (string * V)) : list V := snd <$> m.

(** ** Modal states *)

Inductive ModalType := dialog | fileChooser.

(** The tool whose [schema.name] fills [clearedBy]. *)
Inductive Tool := handleDialog | uploadFile.

(** [ms_source] identifies the underlying [Dialog] or [FileChooser]. *)
Record ModalState := {
  ms_type : ModalType;
  ms_description : string;
  ms_source : nat;
  ms_clearedBy : Tool
}.

Record Dialog := {
  dlg_id : nat;
  dlg_type : string;
  dlg_message : string
}.

Definition dquote : string := String (ascii_of_nat 34) EmptyString.

(** ** The tab *)

Record DownloadEntry := {
  download : nat;
  dl_finished : bool;
  outputFile : string
}.

(** The fields of [Tab], the URL of its page, the store of the network
    records (a record is addressed by its index) and the one-shot listeners
    registered for the [modalState] event, by identity. *)
Record Tab := {
  page_url : string;
  _consoleMessages : list ConsoleMessage;
  _recentConsoleMessages : list ConsoleMessage;
  store : list NetworkRequestData;
  _requests : list (string * nat);
  _modalStates : list ModalState;
  _downloads : list DownloadEntry;
  listeners : list nat
}.

Definition set_page_url (u : string) (t : Tab) : Tab :=
  {| page_url := u; _consoleMessages := _consoleMessages t;
     _recentConsoleMessages := _recentConsoleMessages t; store := store t;
     _requests := _requests t; _modalStates := _modalStates t;
     _downloads := _downloads t; listeners := listeners t |}.

Definition set_console (full recent : list ConsoleMessage) (t : Tab) : Tab :=
  {| page_url := page_url t; _consoleMessages := full;
     _recentConsoleMessages := recent; store := store t;
     _requests := _requests t; _modalStates := _modalStates t;
     _downloads := _downloads t; listeners := listeners t |}.

Definition set_network (s : list NetworkRequestData) (m : list (string * nat)) (t : Tab) : Tab :=
  {| page_url := page_url t; _consoleMessages := _consoleMessages t;
     _recentConsoleMessages := _recentConsoleMessages t; store := s;
     _requests := m; _modalStates := _modalStates t;
     _downloads := _downloads t; listeners := listeners t |}.

Definition set_modal (states : list ModalState) (ls : list nat) (t : Tab) : Tab :=
  {| page_url := page_url t; _consoleMessages := _consoleMessages t;
     _recentConsoleMessages := _recentConsoleMessages t; store := store t;
     _requests := _requests t; _modalStates := states;
     _downloads := _downloads t; listeners := ls |}.

(** A tab right after construction on a blank page. *)
Definition newTab : Tab :=
  {| page_url := "about:blank"; _consoleMessages := []; _recentConsoleMessages := [];
     store := []; _requests := []; _modalStates := []; _downloads := [];
     listeners := [] |}.

Definition _handleConsoleMessage (message : ConsoleMessage) (t : Tab) : Tab :=
  if negb (_shouldCaptureConsoleMessage message) then t
  else set_console (_consoleMessages t ++ [message])
                   (_recentConsoleMessages t ++ [message]) t.

(** [this._requests.set(request.url(), { request, status: 'pending' })]:
    a new record object is allocated. *)
Definition _handleRequest (rq : Request) (t : Tab) : Tab :=
  let data := {| request := rq; response := None; status := pending; error := None |} in
  set_network (store t ++ [data]) (map_set (rq_url rq) (length (store t)) (_requests t)) t.

(** [const data = this._requests.get(url); if (data) ...]: the record is
    changed in place. *)
Definition mutate (url : string) (f : NetworkRequestData → NetworkRequestData) (t : Tab) : Tab :=
  match map_get url (_requests t) with
  | Some a => set_network (alter f a (store t)) (_requests t) t
  | None => t
  end.

Definition _handleResponse (rs : Response) (t : Tab) : Tab :=
  mutate (rs_url rs)
    (λ data, {| request := request data; response := Some rs;
                status := status data; error := error data |}) t.

Definition _handleRequestFinished (rq : Request) (t : Tab) : Tab :=
  mutate (rq_url rq)
    (λ data, {| request := request data; response := response data;
                status := finished; error := error data |}) t.

Definition _handleRequestFailed (rq : Request) (t : Tab) : Tab :=
  mutate (rq_url rq)
    (λ data, {| request := request data; response := response data;
                status := failed; error := errorText <$> rq_failure rq |}) t.

(** [requests()], once the tab is initialized: the records in the order of
    the map. *)
Definition requests (t : Tab) : list NetworkRequestData :=
  omap (λ a, store t !! a) (map_values (_requests t)).

(** The record the journal holds for a URL. *)
Definition recordOf (url : string) (t : Tab) : option NetworkRequestData :=
  a ← map_get url (_requests t); store t !! a.

Definition _clearCollectedArtifacts (t : Tab) : Tab :=
  set_network (store t) [] (set_console [] [] t).

(** [setModalState]: push, then [emit]. Every listener of the event is a
    one-shot listener, so the emission calls and removes them all; the
    listeners that were called are returned with the new tab. *)
Definition setModalState (modalState : ModalState) (t : Tab) : Tab * list nat :=
  (set_modal (_modalStates t ++ [modalState]) [] t, listeners t).

Definition dialogState (d : Dialog) : ModalState :=
  {| ms_type := dialog;
     ms_description :=
       dquote +:+ dlg_type d +:+ dquote +:+ " dialog with message "
         +:+ dquote +:+ dlg_message d +:+ dquote;
     ms_source := dlg_id d;
     ms_clearedBy := handleDialog |}.

Definition fileChooserState (chooser : nat) : ModalState :=
  {| ms_type := fileChooser;
     ms_description := "File chooser";
     ms_source := chooser;
     ms_clearedBy := uploadFile |}.

Definition _javaScriptBlocked (t : Tab) : bool :=
  existsb (λ state, match ms_type state with dialog => true | fileChooser => false end)
          (_modalStates t).

(** The page events the constructor subscribes to ([console] stands for
    both [console] and [pageerror], after conversion to a
    [ConsoleMessage]), and [evNavigated]: the page commits a navigation, so
    that [page.url()] changes; no handler of the tab runs for it. *)
Inductive PageEvent :=
| evConsole (m : ConsoleMessage)
| evRequest (rq : Request)
| evResponse (rs : Response)
| evRequestFinished (rq : Request)
| evRequestFailed (rq : Request)
| evClose
| evFileChooser (chooser : nat)
| evDialog (d : Dialog)
| evNavigated (url : string).

(** The modal state an event pushes, if any. *)
Definition pushes (e : PageEvent) : option ModalState :=
  match e with
  | evFileChooser c => Some (fileChooserState c)
  | evDialog d => Some (dialogState d)
  | _ => None
  end.

(** Dispatch of one page event: the new tab and, for an event that pushes a
    modal state, that state with the listeners its emission called. *)
Definition dispatch (e : PageEvent) (t : Tab) : Tab * option (ModalState * list nat) :=
  match e with
  | evConsole m => (_handleConsoleMessage m t, None)
  | evRequest rq => (_handleRequest rq t, None)
  | evResponse rs => (_handleResponse rs t, None)
  | evRequestFinished rq => (_handleRequestFinished rq t, None)
  | evRequestFailed rq => (_handleRequestFailed rq t, None)
  | evClose => (_clearCollectedArtifacts t, None)
  | evFileChooser c =>
      let '(t', called) := setModalState (fileChooserState c) t in
      (t', Some (fileChooserState c, called))
  | evDialog d =>
      let '(t', called) := setModalState (dialogState d) t in
      (t', Some (dialogState d, called))
  | evNavigated url => (set_page_url url t, None)
  end.

Definition handle (e : PageEvent) (t : Tab) : Tab := fst (dispatch e t).

Definition handleAll (es : list PageEvent) (t : Tab) : Tab := foldl (flip handle) t es.

(** ** Racing an action against modal states *)

(** The state of a promise. *)
Inductive Promise (A : Type) :=
| Pending
| Fulfilled (value : A)
| Rejected (reason : string).
Arguments Pending {A}.
Arguments Fulfilled {A} value.
Arguments Rejected {A} reason.

(** Settling a promise that is already settled does nothing. *)
Definition settle {A} (p new : Promise A) : Promise A :=
  match p with
  | Pending => new
  | _ => p
  end.

(** [Promise.race([a, b])] *)
Definition promiseRace {A} (a b : Promise A) : Promise A :=
  match a with
  | Pending => b
  | _ => a
  end.

(** One call of [_raceAgainstModalStates] in flight: the identity of its
    [listener], its [ManualPromise], the promise [action().then(...)], and
    the promise the caller awaits. [started] records whether [action] was
    called at all. *)
Record Race := {
  started : bool;
  listener : nat;
  promise : Promise (list ModalState);
  chained : Promise (list ModalState);
  awaited : Promise (list ModalState)
}.

(** The identity of a new function object: different from every listener
    that is registered. *)
Definition newListener (t : Tab) : nat := S (foldr max 0 (listeners t)).

(** [emitter.off(event, listener)] *)
Definition off (l : nat) (t : Tab) : Tab :=
  set_modal (_modalStates t) (filter (λ l', l' ≠ l) (listeners t)) t.

(** [emitter.once(event, listener)] *)
Definition once (l : nat) (t : Tab) : Tab :=
  set_modal (_modalStates t) (listeners t ++ [l]) t.

(** The synchronous part of [_raceAgainstModalStates], up to the call of
    [action]. With a stack that is not empty the call returns the array of
    the stack itself, without calling [action]; what is modelled is the
    content of that array when the call returns. *)
Definition raceStart (t : Tab) : Tab * Race :=
  match _modalStates t with
  | _ :: _ =>
      (t, {| started := false; listener := newListener t; promise := Pending;
             chained := Pending; awaited := Fulfilled (_modalStates t) |})
  | [] =>
      (once (newListener t) t,
       {| started := true; listener := newListener t; promise := Pending;
          chained := Pending; awaited := Pending |})
  end.

Definition withPromises (r : Race) (p c : Promise (list ModalState)) : Race :=
  {| started := started r; listener := listener r; promise := p; chained := c;
     awaited := settle (awaited r) (promiseRace c p) |}.

(** The emission of a modal state reaches the race: when its listener is
    among those called, [promise.resolve([modalState])] runs. *)
Definition raceEmitted (em : option (ModalState * list nat)) (r : Race) : Race :=
  match em with
  | Some (modalState, called) =>
      if decide (listener r ∈ called)
      then withPromises r (settle (promise r) (Fulfilled [modalState])) (chained r)
      else r
  | None => r
  end.

(** The promise of [action()] fulfils: the [then] callback removes the
    listener and returns the empty array. *)
Definition raceActionFulfilled (tr : Tab * Race) : Tab * Race :=
  let '(t, r) := tr in
  if started r
  then (off (listener r) t, withPromises r (promise r) (settle (chained r) (Fulfilled [])))
  else (t, r).

(** The promise of [action()] rejects: so does [action().then(...)]; the
    callback does not run. *)
Definition raceActionRejected (reason : string) (tr : Tab * Race) : Tab * Race :=
  let '(t, r) := tr in
  if started r
  then (t, withPromises r (promise r) (settle (chained r) (Rejected reason)))
  else (t, r).

(** What can happen while a race is in flight. *)
Inductive Event :=
| Page (e : PageEvent)
| ActionFulfils
| ActionRejects (reason : string).

Definition raceStep (tr : Tab * Race) (ev : Event) : Tab * Race :=
  match ev with
  | Page e =>
      let '(t', em) := dispatch e (fst tr) in (t', raceEmitted em (snd tr))
  | ActionFulfils => raceActionFulfilled tr
  | ActionRejects reason => raceActionRejected reason tr
  end.

Definition raceRun (tr : Tab * Race) (evs : list Event) : Tab * Race :=
  foldl raceStep tr evs.

(** [_raceAgainstModalStates(action)] followed by the events [evs]. *)
Definition _raceAgainstModalStates (t : Tab) (evs : list Event) : Tab * Race :=
  raceRun (raceStart t) evs.

(** ** captureSnapshot *)

Record TabSnapshot := {
  url : string;
  title : string;
  ariaSnapshot : string;
  modalStates : list ModalState;
  consoleMessages : list ConsoleMessage;
  downloads : list DownloadEntry
}.

Inductive Mode := full | incremental.

(** Where the action passed by [captureSnapshot] is: awaiting
    [page._snapshotForAI], or awaiting [page.title()] with the snapshot and
    the [page.url()] it has read already, or settled. *)
Inductive Stage :=
| awaitingSnapshot
| awaitingTitle (snapshot pageUrl : string)
| actionSettled.

(** One call of [captureSnapshot] in flight: its race, its action, its
    local variable [tabSnapshot] and the promise it returned. *)
Record Capture := {
  race : Race;
  stage : Stage;
  tabSnapshot : option TabSnapshot;
  returned : Promise TabSnapshot
}.

Definition withConsole (s : TabSnapshot) (ms : list ConsoleMessage) : TabSnapshot :=
  {| url := url s; title := title s; ariaSnapshot := ariaSnapshot s;
     modalStates := modalStates s; consoleMessages := ms; downloads := downloads s |}.

(** The code of [captureSnapshot] after [await this._raceAgainstModalStates]:
    it runs once, when the awaited promise has settled. *)
Definition captureResume (tc : Tab * Capture) : Tab * Capture :=
  let '(t, c) := tc in
  match returned c, awaited (race c) with
  | Pending, Fulfilled states =>
      match tabSnapshot c with
      | Some s =>
          let s' := withConsole s (_recentConsoleMessages t) in
          (set_console (_consoleMessages t) [] t,
           {| race := race c; stage := stage c; tabSnapshot := Some s';
              returned := Fulfilled s' |})
      | None =>
          (t, {| race := race c; stage := stage c; tabSnapshot := None;
                 returned :=
                   Fulfilled {| url := page_url t; title := ""; ariaSnapshot := "";
                                modalStates := states; consoleMessages := [];
                                downloads := [] |} |})
      end
  | Pending, Rejected reason =>
      (t, {| race := race c; stage := stage c; tabSnapshot := tabSnapshot c;
             returned := Rejected reason |})
  | _, _ => tc
  end.

(** What can happen while a capture is in flight: a page event, or the
    browser round-trip that the action awaits fulfils or rejects. *)
Inductive CaptureEvent :=
| cPage (e : PageEvent)
| cResolves (value : string)
| cRejects (reason : string).

Definition captureEvent (tc : Tab * Capture) (ev : CaptureEvent) : Tab * Capture :=
  let '(t, c) := tc in
  match ev with
  | cPage e =>
      let '(t', em) := dispatch e t in
      (t', {| race := raceEmitted em (race c); stage := stage c;
              tabSnapshot := tabSnapshot c; returned := returned c |})
  | cResolves value =>
      match stage c with
      | awaitingSnapshot =>
          (t, {| race := race c; stage := awaitingTitle value (page_url t);
                 tabSnapshot := tabSnapshot c; returned := returned c |})
      | awaitingTitle snapshot pageUrl =>
          let '(t', r') := raceActionFulfilled (t, race c) in
          (t', {| race := r'; stage := actionSettled;
                  tabSnapshot :=
                    Some {| url := pageUrl; title := value; ariaSnapshot := snapshot;
                            modalStates := []; consoleMessages := [];
                            downloads := _downloads t |};
                  returned := returned c |})
      | actionSettled => tc
      end
  | cRejects reason =>
      match stage c with
      | actionSettled => tc
      | _ =>
          let '(t', r') := raceActionRejected reason (t, race c) in
          (t', {| race := r'; stage := actionSettled;
                  tabSnapshot := tabSnapshot c; returned := returned c |})
      end
  end.

Definition captureStep (tc : Tab * Capture) (ev : CaptureEvent) : Tab * Capture :=
  captureResume (captureEvent tc ev).

Definition captureStart (t : Tab) : Tab * Capture :=
  let '(t', r) := raceStart t in
  captureResume
    (t', {| race := r; stage := if started r then awaitingSnapshot else actionSettled;
            tabSnapshot := None; returned := Pending |}).

(** [captureSnapshot(mode)] followed by the events [evs]; [mode] is passed
    on to the page, whose answer is among the events. *)
Definition captureSnapshot (mode : Mode) (t : Tab) (evs : list CaptureEvent) : Tab * Capture :=
  foldl captureStep (captureStart t) evs.

(** ** waitForTimeout *)

(** Where [waitForTimeout] sleeps, and for how many milliseconds. *)
Inductive Sleep :=
| sleepInController (ms : nat)
| sleepInPage (ms : nat).

Definition waitForTimeout (time : nat) (t : Tab) : Sleep :=
  if _javaScriptBlocked t then sleepInController time
  else sleepInPage 1000.

(** ** navigate *)

(** [promise.catch(logUnhandledError)]: a rejection becomes [undefined]. *)
Definition catchLogged {A} (p : Outcome A) : Outcome (option A) :=
  match p with
  | fulfils ms v => fulfils ms (Some v)
  | rejects ms _ => fulfils ms None
  | never => never
  end.

(** [await Promise.race([p, new Promise(resolve => setTimeout(resolve, timeoutMs))])]
    entered at time [now], for a promise [p] that does not reject: the time
    at which the race is won and its value, [None] for [undefined]. A promise
    that settles only when the timer is due loses. *)
Definition raceTimer {A} (now : nat) (p : Outcome (option A)) (timeoutMs : nat) : nat * option A :=
  match p with
  | fulfils ms v => if ms <? now + timeoutMs then (max now ms, v) else (now + timeoutMs, None)
  | _ => (now + timeoutMs, None)
  end.

Definition mightBeDownload (message : string) : bool :=
  Js.includes message "net::ERR_ABORTED" || Js.includes message "Download is starting".

(** [navigate(url)]. The driver's answers are arguments: [goto] for
    [page.goto], [waitForDownload] for [page.waitForEvent('download')] and
    [loadState] for [page.waitForLoadState('load', { timeout: 5000 })], the
    first two on the time line that starts with the call, the third on the
    one that starts when [goto] has fulfilled. *)
Definition navigate (goto : Outcome unit) (waitForDownload : Outcome nat)
    (loadState : Outcome unit) : Outcome unit :=
  let downloadEvent := catchLogged waitForDownload in
  match goto with
  | rejects at_ message =>
      if negb (mightBeDownload message) then rejects at_ message
      else
        let '(now, download) := raceTimer at_ downloadEvent 3000 in
        match download with
        | None => rejects now message
        | Some _ => fulfils (now + 500) ()
        end
  | fulfils at_ _ =>
      match catchLogged loadState with
      | fulfils ms _ => fulfils (at_ + ms) ()
      | _ => never
      end
  | never => never
  end.

(** ** refLocators *)

Record RefParam := { element : string; ref : string }.

(** [page.locator(selector).describe(description)] *)
Record Locator := { selector : string; description : string }.

Record Located := { locator : Locator; resolved : string }.

Definition notFound (param : RefParam) : string :=
  "Ref " +:+ ref param +:+ " not found in the current page snapshot. Try capturing new snapshot.".

(** The body of the callback of [params.map]: whatever goes wrong is
    replaced by the [notFound] error. [resolveSelector] is the driver's
    answer to [locator._resolveSelector()], [asLocator] renders it. *)
Definition refLocatorOne (resolveSelector : RefParam → Outcome string)
    (asLocator : string → string) (param : RefParam) : Outcome Located :=
  match resolveSelector param with
  | fulfils ms resolvedSelector =>
      fulfils ms {| locator := {| selector := "aria-ref=" +:+ ref param;
                                  description := element param |};
                    resolved := asLocator resolvedSelector |}
  | rejects ms _ => rejects ms (notFound param)
  | never => never
  end.

(** [Promise.all]: fulfils with all the values, in the order of the array,
    when the last promise has fulfilled; rejects as soon as one promise
    rejects, with its reason (the earliest in the array, of those that reject
    at the same time). [firstRejection] finds that promise. *)
Fixpoint firstRejection {A} (ps : list (Outcome A)) : option (nat * string) :=
  match ps with
  | [] => None
  | p :: ps' =>
      match p, firstRejection ps' with
      | rejects ms reason, Some (ms', reason') =>
          if ms <=? ms' then Some (ms, reason) else Some (ms', reason')
      | rejects ms reason, None => Some (ms, reason)
      | _, later => later
      end
  end.

Fixpoint allFulfilled {A} (ps : list (Outcome A)) : option (nat * list A) :=
  match ps with
  | [] => Some (0, [])
  | fulfils ms v :: ps' =>
      '(ms', vs) ← allFulfilled ps'; Some (max ms ms', v :: vs)
  | _ :: _ => None
  end.

Definition promiseAll {A} (ps : list (Outcome A)) : Outcome (list A) :=
  match allFulfilled ps with
  | Some (ms, vs) => fulfils ms vs
  | None =>
      match firstRejection ps with
      | Some (ms, reason) => rejects ms reason
      | None => never
      end
  end.

Definition refLocators (resolveSelector : RefParam → Outcome string)
    (asLocator : string → string) (params : list RefParam) : Outcome (list Located) :=
  promiseAll (refLocatorOne resolveSelector asLocator <$> params).

(** ** Rendering of a response body (tools/network.ts) *)

(** [result.response.body]: a parsed JSON document or a string. *)
Inductive Body :=
| bodyJson (j : Json)
| bodyText (s : string).

Definition mapOutcome {A B} (f : A → B) (p : Outcome A) : Outcome B :=
  match p with
  | fulfils ms v => fulfils ms (f v)
  | rejects ms reason => rejects ms reason
  | never => never
  end.

Definition delay {A} (by_ : nat) (p : Outcome A) : Outcome A :=
  match p with
  | fulfils ms v => fulfils (by_ + ms) v
  | rejects ms reason => rejects (by_ + ms) reason
  | never => never
  end.

(** [p.catch(handler)], for a handler that returns the promise [handled],
    started when [p] rejects. *)
Definition catchWith {A} (p handled : Outcome A) : Outcome A :=
  match p with
  | rejects ms _ => delay ms handled
  | _ => p
  end.

(** [await withTimeout(promise, timeoutMs, fallback)]: the value, or the
    reason of the rejection that is thrown. A promise that settles only when
    the timer is due loses. *)
Definition withTimeout {T} (promise : Outcome T) (timeoutMs : nat) (fallback : T) : T + string :=
  match promise with
  | fulfils ms v => if ms <? timeoutMs then inl v else inl fallback
  | rejects ms reason => if ms <? timeoutMs then inr reason else inl fallback
  | never => inl fallback
  end.

Definition CAPTURE_BODY_RESOURCE_TYPES : list string := ["xhr"; "fetch"; "document"].

(** [response.headers()['content-type'] || ''] *)
Definition contentTypeOf (rs : Response) : string :=
  default "" (map_get "content-type" (rs_headers rs)).

(** The part of [renderRequest] that fills [result.response.body], for a
    record that has a response. *)
Definition renderBody (resourceType : string) (rs : Response) : Body :=
  let shouldCaptureBody := bool_decide (resourceType ∈ CAPTURE_BODY_RESOURCE_TYPES) in
  if shouldCaptureBody then
    let contentType := contentTypeOf rs in
    if Js.includes contentType "application/json" then
      match
        withTimeout
          (catchWith (mapOutcome bodyJson (rs_json rs))
             (catchWith (mapOutcome bodyText (rs_text rs))
                (fulfils 0 (bodyText "<body unavailable>"))))
          2000 (bodyText "<body capture timeout>")
      with
      | inl body => body
      | inr _ => bodyText "<failed to capture body>"
      end
    else if Js.includes contentType "text/" || Js.includes contentType "application/javascript" then
      match
        withTimeout (catchWith (rs_text rs) (fulfils 0 "<body unavailable>"))
          2000 "<body capture timeout>"
      with
      | inl text =>
          bodyText (if 5000 <? String.length text
                    then Js.substring0 5000 text +:+ "... (truncated)"
                    else text)
      | inr _ => bodyText "<failed to capture body>"
      end
    else bodyText "<non-text content>"
  else bodyText "<body not captured for static asset>".

(** [result.response.body] of [renderRequest(data)], when [data.response]
    is set. *)
Definition renderedBody (data : NetworkRequestData) : option Body :=
  renderBody (rq_resourceType (request data)) <$> response data.

(** ** Sample data and auxiliary predicates *)

(** A message is noise when a deny-listed substring occurs, up to letter
    case, in its text or in its long form. *)
Definition noise (m : ConsoleMessage) : Prop :=
  ∃ p, p ∈ nextJsPatterns ∧
       (Js.occursInIgnoringCase p (cm_text m) ∨ Js.occursInIgnoringCase p (cm_toString m)).

Definition hmrMessage : ConsoleMessage :=
  {| cm_type := Some "log"; cm_text := "[HMR] connected";
     cm_toString := "[LOG] [HMR] connected @ http://localhost:3000/main.js:12" |}.

Definition requestA : Request :=
  {| rq_url := "https://a/x"; rq_method := "GET"; rq_resourceType := "fetch";
     rq_failure := None |}.

Definition requestA_failed : Request :=
  {| rq_url := "https://a/x"; rq_method := "GET"; rq_resourceType := "fetch";
     rq_failure := Some {| errorText := "net::ERR_CONNECTION_REFUSED" |} |}.

(** A second request for the same URL, in flight at the same time. *)
Definition requestB : Request :=
  {| rq_url := "https://a/x"; rq_method := "POST"; rq_resourceType := "fetch";
     rq_failure := None |}.

Definition requestB_failed : Request :=
  {| rq_url := "https://a/x"; rq_method := "POST"; rq_resourceType := "fetch";
     rq_failure := Some {| errorText := "net::ERR_CONNECTION_RESET" |} |}.

Definition responseA : Response :=
  {| rs_url := "https://a/x"; rs_status := 200;
     rs_headers := [("content-type", "text/plain")];
     rs_json := rejects 1 "SyntaxError"; rs_text := fulfils 1 "ok" |}.

Definition paramSubmit : RefParam := {| element := "Submit button"; ref := "e1" |}.
Definition paramStale : RefParam := {| element := "Old link"; ref := "e9" |}.

(** A page on which only [e1] is left in the snapshot. *)
Definition onlyE1 (p : RefParam) : Outcome string :=
  if decide (ref p = "e1") then fulfils 3 "internal:role=button"
  else rejects 5 "Error: stale aria-ref".

(** A string of [n] copies of the letter x, and one of 5001. *)
Fixpoint xs (n : nat) : string :=
  match n with
  | 0 => EmptyString
  | S n' => String "x" (xs n')
  end.

Definition longBody : string := String "x" (xs 5000).

Definition longText : Response :=
  {| rs_url := "https://a/x"; rs_status := 200;
     rs_headers := [("content-type", "text/html; charset=utf-8")];
     rs_json := rejects 1 "SyntaxError"; rs_text := fulfils 40 longBody |}.

Definition alertDialog : Dialog := {| dlg_id := 1; dlg_type := "alert"; dlg_message := "hi" |}.

(** What holds of a capture as long as it has not returned: its action has
    been started and has not settled, no modal state has reached its
    listener, which is still registered, and [tabSnapshot] is unset. *)
Definition inFlight (tc : Tab * Capture) : Prop :=
  tabSnapshot (snd tc) = None ∧
  stage (snd tc) ≠ actionSettled ∧
  started (race (snd tc)) = true ∧
  promise (race (snd tc)) = Pending ∧
  chained (race (snd tc)) = Pending ∧
  awaited (race (snd tc)) = Pending ∧
  listener (race (snd tc)) ∈ listeners (fst tc).

Definition appLog : ConsoleMessage :=
  {| cm_type := Some "log"; cm_text := "ready"; cm_toString := "[LOG] ready @ https://a/app.js:1" |}.

Definition lateWarning : ConsoleMessage :=
  {| cm_type := Some "warning"; cm_text := "slow frame";
     cm_toString := "[WARNING] slow frame @ https://a/app.js:9" |}.

(** ** Further operations of the tab and of the renderer *)

(** [consoleMessages(type)], once the tab is initialized. An empty [type]
    is falsy and filters nothing. *)
Definition typeMatches (type : option string) (message : ConsoleMessage) : bool :=
  match type with
  | Some ty => if decide (ty = "") then true else bool_decide (cm_type message = Some ty)
  | None => true
  end.

Definition consoleMessagesOf (type : option string) (t : Tab) : list ConsoleMessage :=
  filter (λ message, typeMatches type message) (_consoleMessages t).

(** What the [pageerror] event carries: an [Error], with its message and
    its stack when it has one, or any other value, given by [String(value)]. *)
Inductive PageError :=
| thrownError (message : string) (stack : option string)
| thrownValue (rendering : string).

(** [pageErrorToConsoleMessage]; [stack || message] takes the message when
    the stack is missing or empty. *)
Definition pageErrorToConsoleMessage (errorOrValue : PageError) : ConsoleMessage :=
  match errorOrValue with
  | thrownError message stack =>
      {| cm_type := Some "error"; cm_text := message;
         cm_toString :=
           match stack with
           | Some s => if decide (s = "") then message else s
           | None => message
           end |}
  | thrownValue rendering =>
      {| cm_type := Some "error"; cm_text := rendering; cm_toString := rendering |}
  end.

(** [resetLogs()] *)
Definition resetLogs (t : Tab) : Tab := _clearCollectedArtifacts t.

(** One iteration of the second loop of [_initialize]: a request that the
    page made before the tab listened is journaled as finished, with
    [response ?? undefined]. *)
Definition backfillRequest (rq : Request) (rs : option Response) (t : Tab) : Tab :=
  let data := {| request := rq; response := rs; status := finished; error := None |} in
  set_network (store t ++ [data]) (map_set (rq_url rq) (length (store t)) (_requests t)) t.

(** What changes the journals of a tab: a page event, or one iteration of
    a loop of [_initialize], which runs between page events. *)
Inductive Step :=
| onPage (e : PageEvent)
| backfillMessage (m : ConsoleMessage)
| backfillRequested (rq : Request) (rs : option Response).

Definition step (t : Tab) (s : Step) : Tab :=
  match s with
  | onPage e => handle e t
  | backfillMessage m => _handleConsoleMessage m t
  | backfillRequested rq rs => backfillRequest rq rs t
  end.

Definition run (t : Tab) (steps : list Step) : Tab := foldl step t steps.

(** [renderModalStates]; [schemaName] gives the [schema.name] of a tool. *)
Definition renderModalStates (schemaName : Tool → string) (states : list ModalState) : list string :=
  ["### Modal state"]
  ++ (if decide (length states = 0) then ["- There is no modal state present"] else [])
  ++ ((λ state, "- [" +:+ ms_description state +:+ "]: can be handled by the "
                +:+ dquote +:+ schemaName (ms_clearedBy state) +:+ dquote +:+ " tool")
        <$> states).

(** [modalStatesMarkdown()] *)
Definition modalStatesMarkdown (schemaName : Tool → string) (t : Tab) : list string :=
  renderModalStates schemaName (_modalStates t).

(** [refLocator(params)]: the first element of the batch of one. *)
Definition refLocator (resolveSelector : RefParam → Outcome string)
    (asLocator : string → string) (param : RefParam) : Outcome (option Located) :=
  mapOutcome head (refLocators resolveSelector asLocator [param]).

(** [result.error] of [renderRequest(data)]: set when the status is
    [failed] and the error text is truthy. *)
Definition renderedError (data : NetworkRequestData) : option string :=
  match status data, error data with
  | failed, Some text => if decide (text = "") then None else Some text
  | _, _ => None
  end.

(** ** updateTitle *)

(** What can happen while [updateTitle] is in flight: a page event, or the
    answer to [page.title()]. *)
Inductive TitleEvent :=
| tPage (e : PageEvent)
| tResolves (value : string)
| tRejects (reason : string).

(** One call of [updateTitle] in flight: the tab, the race and the field
    [_lastTitle]. The action settles once, when [page.title()] does. *)
Definition titleStep (s : Tab * Race * string) (ev : TitleEvent) : Tab * Race * string :=
  let '(t, r, lastTitle) := s in
  match ev with
  | tPage e => let '(t', em) := dispatch e t in (t', raceEmitted em r, lastTitle)
  | tResolves value =>
      match started r, chained r with
      | true, Pending => (raceActionFulfilled (t, r), value)
      | _, _ => s
      end
  | tRejects reason =>
      match started r, chained r with
      | true, Pending => (raceActionRejected reason (t, r), lastTitle)
      | _, _ => s
      end
  end.

(** [updateTitle()] on a tab whose cached title is [lastTitle], followed by
    the events [evs]. *)
Definition updateTitle (t : Tab) (lastTitle : string) (evs : list TitleEvent) : Tab * Race * string :=
  foldl titleStep (raceStart t, lastTitle) evs.

(** What the caller of [updateTitle] awaits. *)
Definition titleReturned (s : Tab * Race * string) : Promise unit :=
  match awaited (snd (fst s)) with
  | Pending => Pending
  | Fulfilled _ => Fulfilled ()
  | Rejected reason => Rejected reason
  end.

(** ** Auxiliary notions for the properties *)

(** The console message an event delivers. *)
Definition delivered (e : PageEvent) : option ConsoleMessage :=
  match e with
  | evConsole m => Some m
  | _ => None
  end.

(** The messages of a list that the filter lets through. *)
Definition accepted (ms : list ConsoleMessage) : list ConsoleMessage :=
  filter (λ m, _shouldCaptureConsoleMessage m) ms.

(** The URL under which a step journals a record. *)
Definition requested (s : Step) : option string :=
  match s with
  | onPage (evRequest rq) => Some (rq_url rq)
  | backfillRequested rq _ => Some (rq_url rq)
  | _ => None
  end.

(** The journal is well formed: its URLs are distinct, so are its
    addresses, and each address holds a record whose request has the URL. *)
Definition journalOk (t : Tab) : Prop :=
  NoDup (fst <$> _requests t) ∧
  NoDup (snd <$> _requests t) ∧
  ∀ u a, (u, a) ∈ _requests t →
    ∃ r, store t !! a = Some r ∧ rq_url (request r) = u.

(** The records of the store are consistent: a response sits on a record
    whose request has the same URL, and a pending record has no error text. *)
Definition recordsOk (t : Tab) : Prop :=
  ∀ a r, store t !! a = Some r →
    (∀ rs, response r = Some rs → rs_url rs = rq_url (request r)) ∧
    (status r = pending → error r = None).


(** The recent console journal is the end of the full one. *)
Definition recentIsTail (t : Tab) : Prop :=
  _recentConsoleMessages t `suffix_of` _consoleMessages t.


(** * Properties *)

(** ** Strings *)

Lemma startsWith_spec s p : Js.startsWith s p = true ↔ ∃ b, s = p +:+ b.
Proof.
  revert s. induction p as [|c p IH]; intros s; simpl.
  - split; [intros _; by exists s | done].
  - destruct s as [|d s]; simpl.
    + split; [done | intros [b Hb]; discriminate].
    + rewrite andb_true_iff, IH, Ascii.eqb_eq. split.
      * intros [-> [b ->]]. by exists b.
      * intros [b Hb]. injection Hb as -> ->. eauto.
Qed.

Lemma includes_spec s p : Js.includes s p = true ↔ Js.occursIn p s.
Proof.
  unfold Js.occursIn. induction s as [|d s IH]; simpl.
  - rewrite orb_false_r, startsWith_spec. split.
    + intros [b Hb]. by exists "", b.
    + intros [a [b Hb]]. destruct a; [by exists b | discriminate].
  - rewrite orb_true_iff, IH, startsWith_spec. split.
    + intros [[b Hb] | [a [b Hb]]].
      * by exists "", b.
      * exists (String d a), b. simpl. by rewrite Hb.
    + intros [a [b Hb]]. destruct a as [|d' a]; simpl in Hb.
      * left. by exists b.
      * right. injection Hb as -> ->. by exists a, b.
Qed.

Lemma toLowerCase_app a b :
  Js.toLowerCase (a +:+ b) = Js.toLowerCase a +:+ Js.toLowerCase b.
Proof. induction a as [|c a IH]; simpl; [done | by rewrite IH]. Qed.

Lemma toLowerCase_split s x y :
  Js.toLowerCase s = x +:+ y →
  ∃ s1 s2, s = s1 +:+ s2 ∧ Js.toLowerCase s1 = x ∧ Js.toLowerCase s2 = y.
Proof.
  revert s. induction x as [|c x IH]; intros s H; simpl in H.
  - by exists "", s.
  - destruct s as [|d s]; simpl in H; [discriminate|].
    injection H as Hc H. destruct (IH _ H) as (s1 & s2 & -> & <- & <-).
    exists (String d s1), s2. simpl. by rewrite Hc.
Qed.

(** [includes] on the lower-cased text is occurrence up to letter case. *)
Lemma includes_toLowerCase s p :
  Js.includes (Js.toLowerCase s) p = true ↔ Js.occursInIgnoringCase p s.
Proof.
  rewrite includes_spec. unfold Js.occursIn, Js.occursInIgnoringCase. split.
  - intros (a & b & H).
    destruct (toLowerCase_split _ _ _ H) as (s1 & s2 & -> & Ha & H2).
    destruct (toLowerCase_split _ _ _ H2) as (q & s3 & -> & Hq & Hb).
    by exists s1, q, s3.
  - intros (a & q & b & -> & <-).
    exists (Js.toLowerCase a), (Js.toLowerCase b).
    by rewrite !toLowerCase_app.
Qed.

(** ** Console journal *)

Lemma scanPatterns_false text location patterns :
  scanPatterns text location patterns = false ↔
  ∃ p, p ∈ patterns ∧ (Js.includes text p = true ∨ Js.includes location p = true).
Proof.
  induction patterns as [|q ps IH]; simpl.
  - split; [done | intros (p & Hp & _); by apply elem_of_nil in Hp].
  - destruct (Js.includes text q || Js.includes location q) eqn:E.
    + apply orb_true_iff in E. split; [intros _ | done].
      exists q. split; [left | done].
    + apply orb_false_iff in E as [E1 E2]. rewrite IH. split.
      * intros (p & Hp & H). exists p. split; [by right | done].
      * intros (p & Hp & H). apply elem_of_cons in Hp as [-> | Hp].
        -- rewrite E1, E2 in H. by destruct H.
        -- by exists p.
Qed.

Lemma shouldCapture_noise m : _shouldCaptureConsoleMessage m = false ↔ noise m.
Proof.
  unfold _shouldCaptureConsoleMessage, noise. rewrite scanPatterns_false.
  by setoid_rewrite includes_toLowerCase.
Qed.

(** C8. A console or page-error entry whose text or long form contains a
    deny-listed substring, compared without regard to letter case, leaves
    both journals as they are; any other entry is appended to the full and
    to the recent journal. *)
Theorem console_noise_filter (m : ConsoleMessage) (t : Tab) :
  (noise m →
     _consoleMessages (_handleConsoleMessage m t) = _consoleMessages t ∧
     _recentConsoleMessages (_handleConsoleMessage m t) = _recentConsoleMessages t) ∧
  (¬ noise m →
     _consoleMessages (_handleConsoleMessage m t) = _consoleMessages t ++ [m] ∧
     _recentConsoleMessages (_handleConsoleMessage m t) = _recentConsoleMessages t ++ [m]).
Proof.
  unfold _handleConsoleMessage. split; intros H.
  - apply shouldCapture_noise in H. by rewrite H.
  - destruct (_shouldCaptureConsoleMessage m) eqn:E; [done|].
    by apply shouldCapture_noise in E.
Qed.

Lemma console_noise_filter_witness :
  _consoleMessages (_handleConsoleMessage hmrMessage newTab) = [] ∧
  _recentConsoleMessages (_handleConsoleMessage hmrMessage newTab) = [].
Proof.
  apply (proj1 (console_noise_filter hmrMessage newTab)).
  exists "[hmr]". split.
  - unfold nextJsPatterns. do 3 apply list_elem_of_further. apply list_elem_of_here.
  - left. exists "", "[HMR]", " connected". split; reflexivity.
Defined.

(** ** Network journal *)

Lemma map_get_set {V} k (v : V) m : map_get k (map_set k v m) = Some v.
Proof.
  induction m as [|[k' v'] m IH]; simpl.
  - by rewrite decide_True.
  - destruct (decide (k = k')) as [->|Hne]; simpl.
    + by rewrite decide_True.
    + by rewrite decide_False.
Qed.

Lemma recordOf_handleRequest rq t :
  recordOf (rq_url rq) (_handleRequest rq t) =
  Some {| request := rq; response := None; status := pending; error := None |}.
Proof.
  unfold recordOf, _handleRequest. simpl. rewrite map_get_set. simpl.
  by apply list_lookup_middle.
Qed.

Lemma store_mutate u f t a :
  map_get u (_requests t) = Some a →
  store (mutate u f t) !! a = f <$> store t !! a.
Proof. intros H. unfold mutate. rewrite H. simpl. apply list_lookup_alter_eq. Qed.

Lemma recordOf_mutate u f t : recordOf u (mutate u f t) = f <$> recordOf u t.
Proof.
  unfold recordOf, mutate. destruct (map_get u (_requests t)) as [a|] eqn:E; simpl.
  - rewrite E. simpl. apply list_lookup_alter_eq.
  - by rewrite E.
Qed.

(** C1. After [request], [response], [requestfinished] for one URL the
    journal holds, for that URL, the request with the response attached and
    status [finished]; with [requestfailed] in place of [requestfinished] the
    status is [failed], with or without a response, and the error text is the
    [errorText] of the failure the request reports, when it reports one. *)
Theorem request_lifecycle (t : Tab) (rq rq' : Request) (rs : Response) :
  rs_url rs = rq_url rq →
  rq_url rq' = rq_url rq →
  recordOf (rq_url rq) (handleAll [evRequest rq; evResponse rs; evRequestFinished rq'] t)
    = Some {| request := rq; response := Some rs; status := finished; error := None |} ∧
  recordOf (rq_url rq) (handleAll [evRequest rq; evResponse rs; evRequestFailed rq'] t)
    = Some {| request := rq; response := Some rs; status := failed;
              error := errorText <$> rq_failure rq' |} ∧
  recordOf (rq_url rq) (handleAll [evRequest rq; evRequestFailed rq'] t)
    = Some {| request := rq; response := None; status := failed;
              error := errorText <$> rq_failure rq' |}.
Proof.
  intros Hrs Hrq. unfold handleAll, handle. simpl.
  unfold _handleRequestFinished, _handleRequestFailed, _handleResponse.
  rewrite Hrs, Hrq, !recordOf_mutate, recordOf_handleRequest. done.
Qed.

Lemma request_lifecycle_witness :
  recordOf "https://a/x"
    (handleAll [evRequest requestA; evResponse responseA; evRequestFailed requestA_failed] newTab)
  = Some {| request := requestA; response := Some responseA; status := failed;
            error := Some "net::ERR_CONNECTION_REFUSED" |}.
Proof.
  apply (proj1 (proj2 (request_lifecycle newTab requestA requestA_failed responseA
                         eq_refl eq_refl))).
Defined.

(** The scenario of the specification: three events for one URL leave one
    record, finished and with its response. *)
Lemma requests_scenario :
  requests (handleAll [evRequest requestA; evResponse responseA; evRequestFinished requestA] newTab)
  = [ {| request := requestA; response := Some responseA; status := finished; error := None |} ].
Proof. reflexivity. Qed.

(** C1 as it is worded does not hold on every input: a [requestfailed]
    event whose request reports no failure leaves the error text unset. *)
Lemma requestfailed_without_failure :
  ∃ r, recordOf "https://a/x"
         (handleAll [evRequest requestA; evResponse responseA; evRequestFailed requestA] newTab)
       = Some r ∧ status r = failed ∧ error r = None.
Proof. eexists. split; [reflexivity | done]. Qed.

(** C9 as it is worded does not hold. Two requests for one URL are in
    flight; the journal holds the record of the second one. When the first
    request finishes, that record becomes [finished]; when the second request
    then fails, the same record becomes [failed]. *)
Lemma finished_then_failed :
  let finishedA := handleAll [evRequest requestA; evRequest requestB;
                              evRequestFinished requestA] newTab in
  let failedB := handle (evRequestFailed requestB_failed) finishedA in
  map_get "https://a/x" (_requests finishedA) = Some 1 ∧
  map_get "https://a/x" (_requests failedB) = Some 1 ∧
  status <$> store finishedA !! 1 = Some finished ∧
  status <$> store failedB !! 1 = Some failed.
Proof. repeat split; reflexivity. Qed.

(** C9, as the code has it. For the record [r], at address [a], that the
    journal holds for a URL: a [response] event for the URL keeps its status;
    [requestfinished] sets it to [finished] and [requestfailed] to [failed],
    whatever it was, so that a repeated event of the kind that ended the
    request changes nothing; a [request] event leaves the record itself as it
    is and makes the journal hold a new, pending record for the URL. *)
Theorem status_after_end (t : Tab) (u : string) (a : nat) (r : NetworkRequestData) :
  map_get u (_requests t) = Some a →
  store t !! a = Some r →
  status r = finished ∨ status r = failed →
  (∀ rs, rs_url rs = u →
     status <$> store (handle (evResponse rs) t) !! a = Some (status r)) ∧
  (∀ rq, rq_url rq = u →
     status <$> store (handle (evRequestFinished rq) t) !! a = Some finished) ∧
  (∀ rq, rq_url rq = u →
     status <$> store (handle (evRequestFailed rq) t) !! a = Some failed) ∧
  (∀ rq, rq_url rq = u →
     store (handle (evRequest rq) t) !! a = Some r ∧
     status <$> recordOf u (handle (evRequest rq) t) = Some pending).
Proof.
  intros Hu Ha _. unfold handle. simpl.
  split; [|split; [|split]]; intros x <-.
  - unfold _handleResponse. by rewrite (store_mutate _ _ _ _ Hu), Ha.
  - unfold _handleRequestFinished. by rewrite (store_mutate _ _ _ _ Hu), Ha.
  - unfold _handleRequestFailed. by rewrite (store_mutate _ _ _ _ Hu), Ha.
  - split; [|by rewrite recordOf_handleRequest].
    unfold _handleRequest. simpl. rewrite lookup_app_l; [done|].
    by eapply lookup_lt_Some.
Qed.

Lemma status_after_end_witness :
  status <$> store (handle (evRequestFinished requestA)
                      (handleAll [evRequest requestA; evRequestFailed requestA_failed] newTab)) !! 0
  = Some finished.
Proof.
  refine (proj1 (proj2 (status_after_end
            (handleAll [evRequest requestA; evRequestFailed requestA_failed] newTab)
            "https://a/x" 0
            {| request := requestA; response := None; status := failed;
               error := Some "net::ERR_CONNECTION_REFUSED" |}
            eq_refl eq_refl (or_intror eq_refl))) requestA eq_refl).
Defined.

(** ** waitForTimeout *)

Lemma waitForTimeout_blocked time t :
  _javaScriptBlocked t = true → waitForTimeout time t = sleepInController time.
Proof. intros H. unfold waitForTimeout. by rewrite H. Qed.

Lemma waitForTimeout_unblocked time t :
  _javaScriptBlocked t = false → waitForTimeout time t = sleepInPage 1000.
Proof. intros H. unfold waitForTimeout. by rewrite H. Qed.

(** C7, on the code: with no dialog open, a wait of 5000 ms is a sleep of
    1000 ms in the page; the duration that was asked for is not used. With a
    dialog open the controller itself sleeps for the 5000 ms. *)
Theorem waitForTimeout_page_sleep_is_one_second :
  waitForTimeout 5000 newTab = sleepInPage 1000 ∧
  waitForTimeout 5000 newTab ≠ sleepInPage 5000 ∧
  waitForTimeout 5000
    (handle (evDialog {| dlg_id := 1; dlg_type := "alert"; dlg_message := "hi" |}) newTab)
    = sleepInController 5000.
Proof. split; [reflexivity | split; [discriminate | reflexivity]]. Qed.

(** ** navigate *)

Lemma mightBeDownload_spec message :
  mightBeDownload message = true ↔
  Js.occursIn "net::ERR_ABORTED" message ∨ Js.occursIn "Download is starting" message.
Proof. unfold mightBeDownload. by rewrite orb_true_iff, !includes_spec. Qed.

(** C4. [page.goto] rejects at time [failedAt] with [message]. When the
    message has one of the two marks of a download and the download event
    arrives less than 3000 ms after the failure (or arrived before it),
    [navigate] fulfils, 500 ms after the later of the two; when it has one of
    the marks and no download event arrives in that time, [navigate] rejects
    with the same message, at the latest when the 3000 ms are over; when it
    has neither mark, [navigate] rejects with the message at once. *)
Theorem navigate_download_heuristic (failedAt : nat) (message : string)
    (waitForDownload : Outcome nat) (loadState : Outcome unit) :
  let result := navigate (rejects failedAt message) waitForDownload loadState in
  (Js.occursIn "net::ERR_ABORTED" message ∨ Js.occursIn "Download is starting" message →
     (∀ ms d, waitForDownload = fulfils ms d → ms < failedAt + 3000 →
        result = fulfils (max failedAt ms + 500) ()) ∧
     ((∀ ms d, waitForDownload = fulfils ms d → failedAt + 3000 ≤ ms) →
        ∃ now, failedAt ≤ now ≤ failedAt + 3000 ∧ result = rejects now message)) ∧
  (¬ (Js.occursIn "net::ERR_ABORTED" message ∨ Js.occursIn "Download is starting" message) →
     result = rejects failedAt message).
Proof.
  simpl. split.
  - intros Hm%mightBeDownload_spec. unfold navigate. rewrite Hm. simpl. split.
    + intros ms d -> Hlt. simpl.
      destruct (Nat.ltb_spec ms (failedAt + 3000)); [done | lia].
    + intros Hlate. destruct waitForDownload as [ms d | ms reason |]; simpl.
      * specialize (Hlate ms d eq_refl).
        destruct (Nat.ltb_spec ms (failedAt + 3000)); [lia|].
        exists (failedAt + 3000). split; [lia | done].
      * destruct (Nat.ltb_spec ms (failedAt + 3000)).
        -- exists (max failedAt ms). split; [lia | done].
        -- exists (failedAt + 3000). split; [lia | done].
      * exists (failedAt + 3000). split; [lia | done].
  - intros Hm. unfold navigate.
    destruct (mightBeDownload message) eqn:E; [|done].
    by apply mightBeDownload_spec in E.
Qed.

(** No download within the 3000 ms: the load error comes back when they
    are over. A download that arrives later does not help. *)
Lemma navigate_late_download :
  navigate (rejects 120 "page.goto: net::ERR_ABORTED at https://a/file.zip")
           (fulfils 3120 7) never
  = rejects 3120 "page.goto: net::ERR_ABORTED at https://a/file.zip".
Proof. reflexivity. Qed.

(** Another load error comes back at once, download or not. *)
Lemma navigate_other_error :
  navigate (rejects 120 "page.goto: net::ERR_NAME_NOT_RESOLVED at https://a/") (fulfils 130 7) never
  = rejects 120 "page.goto: net::ERR_NAME_NOT_RESOLVED at https://a/".
Proof. reflexivity. Qed.

Lemma navigate_download_heuristic_witness :
  navigate (rejects 120 "page.goto: net::ERR_ABORTED at https://a/file.zip")
           (fulfils 450 7) never
  = fulfils 950 ().
Proof.
  refine (proj1 (proj1 (navigate_download_heuristic 120
            "page.goto: net::ERR_ABORTED at https://a/file.zip" (fulfils 450 7) never) _)
            450 7 eq_refl _).
  - left. exists "page.goto: ", " at https://a/file.zip". reflexivity.
  - lia.
Defined.

(** ** refLocators *)

Lemma allFulfilled_Some {A} (ps : list (Outcome A)) ms vs :
  allFulfilled ps = Some (ms, vs) → Forall2 (λ p v, ∃ m, p = fulfils m v) ps vs.
Proof.
  revert ms vs. induction ps as [|p ps IH]; intros ms vs H; simpl in H.
  - injection H as <- <-. constructor.
  - destruct p as [m v | |]; [|done..].
    destruct (allFulfilled ps) as [[ms' vs']|] eqn:E; [|done].
    simpl in H. injection H as <- <-. constructor; eauto.
Qed.

Lemma allFulfilled_all {A} (ps : list (Outcome A)) :
  Forall (λ p, ∃ m v, p = fulfils m v) ps → ∃ ms vs, allFulfilled ps = Some (ms, vs).
Proof.
  induction 1 as [|p ps (m & v & ->) _ (ms & vs & IH)]; simpl; [eauto|].
  rewrite IH. simpl. eauto.
Qed.

Lemma allFulfilled_rejection {A} (ps : list (Outcome A)) m reason :
  rejects m reason ∈ ps → allFulfilled ps = None.
Proof.
  induction ps as [|p ps IH]; intros H; [by apply elem_of_nil in H|].
  apply elem_of_cons in H as [<- | H]; simpl; [done|].
  destruct p; [|done..]. by rewrite IH.
Qed.

(** [firstRejection] finds a rejection when there is one, and none of the
    others is earlier. *)
Lemma firstRejection_correct {A} (ps : list (Outcome A)) :
  match firstRejection ps with
  | Some (ms, r) => rejects ms r ∈ ps ∧ ∀ m' r', rejects m' r' ∈ ps → ms ≤ m'
  | None => ∀ m' r', rejects m' r' ∉ ps
  end.
Proof.
  induction ps as [|p ps IH]; simpl.
  { intros m' r'. apply not_elem_of_nil. }
  destruct p as [m0 v | m0 r0 |].
  - destruct (firstRejection ps) as [[ms r]|].
    + destruct IH as [Hin Hmin]. split; [by right|].
      intros m' r' [? | ?]%elem_of_cons; [done | eauto].
    + intros m' r' [? | ?]%elem_of_cons; [done | by eapply IH].
  - destruct (firstRejection ps) as [[ms r]|].
    + destruct IH as [Hin Hmin]. destruct (Nat.leb_spec m0 ms).
      * split; [by left|].
        intros m' r' [Heq | Hin']%elem_of_cons; [injection Heq as -> ->; lia|].
        specialize (Hmin _ _ Hin'). lia.
      * split; [by right|].
        intros m' r' [Heq | Hin']%elem_of_cons; [injection Heq as -> ->; lia|].
        by apply (Hmin _ r').
    + split; [by left|].
      intros m' r' [Heq | Hin']%elem_of_cons; [injection Heq as -> ->; lia|].
      by apply IH in Hin'.
  - destruct (firstRejection ps) as [[ms r]|].
    + destruct IH as [Hin Hmin]. split; [by right|].
      intros m' r' [? | ?]%elem_of_cons; [done | eauto].
    + intros m' r' [? | ?]%elem_of_cons; [done | by eapply IH].
Qed.

Lemma promiseAll_fulfils {A} (ps : list (Outcome A)) :
  Forall (λ p, ∃ m v, p = fulfils m v) ps →
  ∃ ms vs, promiseAll ps = fulfils ms vs ∧ Forall2 (λ p v, ∃ m, p = fulfils m v) ps vs.
Proof.
  intros H. destruct (allFulfilled_all ps H) as (ms & vs & E).
  exists ms, vs. unfold promiseAll. rewrite E. split; [done|].
  by eapply allFulfilled_Some.
Qed.

Lemma promiseAll_rejects {A} (ps : list (Outcome A)) m reason :
  rejects m reason ∈ ps →
  ∃ ms r, promiseAll ps = rejects ms r ∧ rejects ms r ∈ ps ∧
          ∀ m' r', rejects m' r' ∈ ps → ms ≤ m'.
Proof.
  intros H. unfold promiseAll. rewrite (allFulfilled_rejection ps m reason H).
  pose proof (firstRejection_correct ps) as Hf.
  destruct (firstRejection ps) as [[ms r]|].
  - exists ms, r. by destruct Hf.
  - by apply Hf in H.
Qed.

Lemma refLocatorOne_rejects resolveSelector asLocator p ms r :
  refLocatorOne resolveSelector asLocator p = rejects ms r ↔
  r = notFound p ∧ ∃ reason, resolveSelector p = rejects ms reason.
Proof.
  unfold refLocatorOne. destruct (resolveSelector p) as [m v | m reason |].
  - split; [done | by intros [_ [? ?]]].
  - split.
    + intros H. injection H as <- <-. eauto.
    + intros [-> [reason' H]]. by injection H as ->.
  - split; [done | by intros [_ [? ?]]].
Qed.

(** C6 as it is worded does not hold: a batch with one reference that
    resolves and one that does not is rejected as a whole; the caller gets
    the error of the stale reference and no result for the other one. *)
Lemma refLocators_rejects_whole_batch :
  refLocators onlyE1 id [paramSubmit; paramStale]
    = rejects 5 "Ref e9 not found in the current page snapshot. Try capturing new snapshot." ∧
  ¬ ∃ ms (results : list Located),
      refLocators onlyE1 id [paramSubmit; paramStale] = fulfils ms results.
Proof. split; [reflexivity | by intros (ms & results & H)]. Qed.

(** C6, as the code has it. Each pair is resolved on its own, and a
    reference that cannot be resolved fails its own resolution with the
    [notFound] error. The batch is all or nothing: when every reference
    resolves, the call fulfils with the results of the single resolutions, in
    the order of the batch; when some reference cannot be resolved, the call
    rejects with the [notFound] error of the reference that failed first,
    and returns no result for the others. *)
Theorem refLocators_all_or_nothing (resolveSelector : RefParam → Outcome string)
    (asLocator : string → string) (params : list RefParam) :
  let one := refLocatorOne resolveSelector asLocator in
  (∀ p ms reason, resolveSelector p = rejects ms reason → one p = rejects ms (notFound p)) ∧
  ((∀ p, p ∈ params → ∃ ms sel, resolveSelector p = fulfils ms sel) →
     ∃ ms located,
       refLocators resolveSelector asLocator params = fulfils ms located ∧
       Forall2 (λ p l, ∃ m, one p = fulfils m l) params located) ∧
  (∀ p ms reason, p ∈ params → resolveSelector p = rejects ms reason →
     ∃ ms' q,
       q ∈ params ∧ one q = rejects ms' (notFound q) ∧
       refLocators resolveSelector asLocator params = rejects ms' (notFound q) ∧
       ∀ p' m' r', p' ∈ params → resolveSelector p' = rejects m' r' → ms' ≤ m').
Proof.
  simpl. split; [|split].
  - intros p ms reason H. apply refLocatorOne_rejects. eauto.
  - intros Hall. unfold refLocators.
    destruct (promiseAll_fulfils (refLocatorOne resolveSelector asLocator <$> params))
      as (ms & located & -> & HF).
    + apply Forall_fmap, Forall_forall. intros p Hp.
      destruct (Hall p Hp) as (m & sel & Hsel).
      unfold refLocatorOne. simpl. rewrite Hsel. eauto.
    + exists ms, located. split; [done|]. by apply Forall2_fmap_l in HF.
  - intros p ms reason Hp Hrej. unfold refLocators.
    destruct (promiseAll_rejects (refLocatorOne resolveSelector asLocator <$> params)
                ms (notFound p)) as (ms' & r & -> & Hin & Hmin).
    + apply list_elem_of_fmap. exists p. split; [|done].
      symmetry. apply refLocatorOne_rejects. eauto.
    + apply list_elem_of_fmap in Hin as (q & Hq & Hqin).
      symmetry in Hq. pose proof Hq as [-> _]%refLocatorOne_rejects.
      exists ms', q. repeat split; [done..|].
      intros p' m' r' Hp' Hr'. apply (Hmin m' (notFound p')).
      apply list_elem_of_fmap. exists p'. split; [|done].
      symmetry. apply refLocatorOne_rejects. eauto.
Qed.

Lemma refLocators_all_or_nothing_witness :
  ∃ ms' q,
    q ∈ [paramSubmit; paramStale] ∧
    refLocatorOne onlyE1 id q = rejects ms' (notFound q) ∧
    refLocators onlyE1 id [paramSubmit; paramStale] = rejects ms' (notFound q) ∧
    ∀ p' m' r', p' ∈ [paramSubmit; paramStale] → onlyE1 p' = rejects m' r' → ms' ≤ m'.
Proof.
  apply (proj2 (proj2 (refLocators_all_or_nothing onlyE1 id [paramSubmit; paramStale]))
           paramStale 5 "Error: stale aria-ref").
  - apply list_elem_of_further, list_elem_of_here.
  - reflexivity.
Defined.

(** ** Rendering of a response body *)

Lemma substring0_prefix n s :
  n ≤ String.length s →
  String.length (Js.substring0 n s) = n ∧ ∃ rest, s = Js.substring0 n s +:+ rest.
Proof.
  revert s. induction n as [|n IH]; intros s H; simpl.
  - split; [done | by exists s].
  - destruct s as [|c s]; simpl in H; [lia|].
    destruct (IH s) as [Hlen [rest Hrest]]; [lia|].
    split; [simpl; by rewrite Hlen | exists rest; by rewrite Hrest at 1].
Qed.

(** C10. For a record whose body is captured (resource type xhr, fetch or
    document). On the text path (the content type does not contain
    application/json and contains text/ or application/javascript) a text
    that arrives within the 2000 ms is rendered as its first 5000 characters
    followed by "... (truncated)" when it is longer than 5000 characters, and
    as it is otherwise. On the JSON path nothing is cut: the parsed document
    is rendered as it is, and so is, whatever its length, the text that is
    rendered when the body does not parse. *)
Theorem text_body_limit (resourceType : string) (rs : Response) :
  resourceType ∈ CAPTURE_BODY_RESOURCE_TYPES →
  (¬ Js.occursIn "application/json" (contentTypeOf rs) →
   Js.occursIn "text/" (contentTypeOf rs) ∨
     Js.occursIn "application/javascript" (contentTypeOf rs) →
   ∀ ms text, rs_text rs = fulfils ms text → ms < 2000 →
     (5000 < String.length text →
        ∃ first rest, text = first +:+ rest ∧ String.length first = 5000 ∧
          renderBody resourceType rs = bodyText (first +:+ "... (truncated)")) ∧
     (String.length text ≤ 5000 → renderBody resourceType rs = bodyText text)) ∧
  (Js.occursIn "application/json" (contentTypeOf rs) →
     (∀ ms j, rs_json rs = fulfils ms j → ms < 2000 →
        renderBody resourceType rs = bodyJson j) ∧
     (∀ ms reason ms' text,
        rs_json rs = rejects ms reason → rs_text rs = fulfils ms' text → ms + ms' < 2000 →
        renderBody resourceType rs = bodyText text)).
Proof.
  intros Hty. unfold renderBody. rewrite (bool_decide_eq_true_2 _ Hty). split.
  - intros Hjson Htext ms text Hrs Hms.
    destruct (Js.includes (contentTypeOf rs) "application/json") eqn:Ej.
    { by apply includes_spec in Ej. }
    rewrite <- !includes_spec, <- orb_true_iff in Htext. rewrite Htext, Hrs. simpl.
    destruct (Nat.ltb_spec ms 2000); [|lia]. split; intros Hlen.
    + destruct (Nat.ltb_spec 5000 (String.length text)); [|lia].
      destruct (substring0_prefix 5000 text) as [Hl [rest Hrest]]; [lia|].
      by exists (Js.substring0 5000 text), rest.
    + by destruct (Nat.ltb_spec 5000 (String.length text)); [lia|].
  - intros Hjson%includes_spec. rewrite Hjson. split.
    + intros ms j -> Hms. simpl. by destruct (Nat.ltb_spec ms 2000); [|lia].
    + intros ms reason ms' text -> -> Hms. simpl.
      by destruct (Nat.ltb_spec (ms + ms') 2000); [|lia].
Qed.

Lemma text_body_limit_witness :
  ∃ first rest, longBody = first +:+ rest ∧ String.length first = 5000 ∧
    renderBody "document" longText = bodyText (first +:+ "... (truncated)").
Proof.
  refine (proj1 (proj1 (text_body_limit "document" longText _) _ _ 40 longBody eq_refl _) _).
  - unfold CAPTURE_BODY_RESOURCE_TYPES. do 2 apply list_elem_of_further. apply list_elem_of_here.
  - intros H%includes_spec. vm_compute in H. discriminate.
  - left. exists "", "html; charset=utf-8". reflexivity.
  - lia.
  - vm_compute. lia.
Defined.

(** ** Racing an action against modal states *)


(** An event that pushes no modal state emits nothing and leaves the modal
    states and the listeners as they are. *)
Lemma dispatch_quiet e t :
  pushes e = None →
  snd (dispatch e t) = None ∧
  listeners (handle e t) = listeners t ∧
  _modalStates (handle e t) = _modalStates t.
Proof.
  unfold handle. destruct e; simpl; try done.
  - intros _. unfold _handleConsoleMessage.
    by destruct (negb (_shouldCaptureConsoleMessage m)).
  - intros _. unfold _handleResponse, mutate.
    by destruct (map_get (rs_url rs) (_requests t)).
  - intros _. unfold _handleRequestFinished, mutate.
    by destruct (map_get (rq_url rq) (_requests t)).
  - intros _. unfold _handleRequestFailed, mutate.
    by destruct (map_get (rq_url rq) (_requests t)).
Qed.

(** An event that pushes a modal state appends it and calls, and removes,
    every listener. *)
Lemma dispatch_push e t modalState :
  pushes e = Some modalState →
  dispatch e t = (set_modal (_modalStates t ++ [modalState]) [] t,
                  Some (modalState, listeners t)).
Proof. destruct e; simpl; try done; by intros [= <-]. Qed.

(** Whatever the event, the listeners it calls are those registered, and
    no listener is added. *)
Lemma dispatch_called e t modalState called :
  snd (dispatch e t) = Some (modalState, called) → called = listeners t.
Proof.
  destruct (pushes e) as [ms|] eqn:E.
  - rewrite (dispatch_push _ _ _ E). simpl. by intros [= _ <-].
  - destruct (dispatch_quiet e t E) as [-> _]. done.
Qed.

Lemma dispatch_listeners e t l : l ∈ listeners (handle e t) → l ∈ listeners t.
Proof.
  destruct (pushes e) as [ms|] eqn:E.
  - unfold handle. rewrite (dispatch_push _ _ _ E). simpl. by intros ?%elem_of_nil.
  - destruct (dispatch_quiet e t E) as (_ & -> & _). done.
Qed.

Lemma raceStep_page tr e :
  raceStep tr (Page e) = (handle e (fst tr), raceEmitted (snd (dispatch e (fst tr))) (snd tr)).
Proof. unfold handle. simpl. by destruct (dispatch e (fst tr)). Qed.

Lemma raceRun_cons tr ev evs : raceRun tr (ev :: evs) = raceRun (raceStep tr ev) evs.
Proof. done. Qed.

Lemma raceRun_app tr evs evs' : raceRun tr (evs ++ evs') = raceRun (raceRun tr evs) evs'.
Proof. apply foldl_app. Qed.

Lemma handleAll_cons e es t : handleAll (e :: es) t = handleAll es (handle e t).
Proof. done. Qed.


(** While no modal state is pushed, page events pass the race by. *)
Lemma raceRun_quiet es t r :
  (∀ e, e ∈ es → pushes e = None) →
  raceRun (t, r) (Page <$> es) = (handleAll es t, r) ∧
  listeners (handleAll es t) = listeners t ∧
  _modalStates (handleAll es t) = _modalStates t.
Proof.
  revert t. induction es as [|e es IH]; intros t Hq; [done|].
  assert (pushes e = None) as He by (apply Hq; by left).
  destruct (dispatch_quiet e t He) as (Hem & Hl & Hm).
  rewrite fmap_cons, raceRun_cons, handleAll_cons, raceStep_page. simpl fst. simpl snd.
  rewrite Hem. simpl raceEmitted.
  destruct (IH (handle e t)) as (IH1 & IH2 & IH3).
  { intros e' He'. apply Hq. by right. }
  rewrite IH1, IH2, IH3. done.
Qed.

(** Once its listener is not registered, page events pass the race by,
    modal states included. *)
Lemma raceRun_unregistered es t r :
  listener r ∉ listeners t →
  raceRun (t, r) (Page <$> es) = (handleAll es t, r) ∧
  listener r ∉ listeners (handleAll es t).
Proof.
  revert t. induction es as [|e es IH]; intros t Hl; [done|].
  rewrite fmap_cons, raceRun_cons, handleAll_cons, raceStep_page. simpl fst. simpl snd.
  assert (raceEmitted (snd (dispatch e t)) r = r) as ->.
  { unfold raceEmitted. destruct (snd (dispatch e t)) as [[ms called]|] eqn:E; [|done].
    apply dispatch_called in E as ->. by rewrite decide_False. }
  apply IH. intros H. by apply dispatch_listeners in H.
Qed.

(** A race that has settled stays as it is for its caller. *)
Lemma awaited_settled evs t r v :
  awaited r = Fulfilled v → awaited (snd (raceRun (t, r) evs)) = Fulfilled v.
Proof.
  revert t r. induction evs as [|ev evs IH]; intros t r H; [done|].
  rewrite raceRun_cons.
  destruct (raceStep (t, r) ev) as [t' r'] eqn:E. apply IH.
  destruct ev as [e | | reason]; simpl in E.
  - destruct (dispatch e t) as [t'' em]. injection E as _ <-.
    unfold raceEmitted. destruct em as [[ms called]|]; [|done].
    destruct (decide (listener r ∈ called)); [|done]. simpl. by rewrite H.
  - destruct (started r); injection E as _ <-; [|done]. simpl. by rewrite H.
  - destruct (started r); injection E as _ <-; [|done]. simpl. by rewrite H.
Qed.

(** When the action rejects first, the caller of the race gets the
    rejection. *)
Lemma race_action_rejects_first :
  awaited (snd (_raceAgainstModalStates newTab [ActionRejects "Error: page closed"]))
  = Rejected "Error: page closed".
Proof. reflexivity. Qed.

Lemma raceStart_idle t :
  _modalStates t = [] →
  raceStart t =
    (once (newListener t) t,
     {| started := true; listener := newListener t; promise := Pending;
        chained := Pending; awaited := Pending |}).
Proof. intros H. unfold raceStart. by rewrite H. Qed.

(** C2. The race starts with no modal state. Page events that push none
    may come first; then an event pushes a modal state while the action has
    not settled. The caller of the race receives the array that holds this
    one state, and nothing that happens afterwards changes that: not a
    further modal state, and not the action when it fulfils or rejects. *)
Theorem race_modal_first (t : Tab) (before : list PageEvent) (e : PageEvent)
    (modalState : ModalState) (rest : list Event) :
  _modalStates t = [] →
  (∀ e', e' ∈ before → pushes e' = None) →
  pushes e = Some modalState →
  awaited (snd (_raceAgainstModalStates t ((Page <$> before) ++ (Page e :: rest))))
    = Fulfilled [modalState].
Proof.
  intros Hidle Hquiet Hpush. unfold _raceAgainstModalStates.
  rewrite (raceStart_idle t Hidle), raceRun_app.
  destruct (raceRun_quiet before (once (newListener t) t)
              {| started := true; listener := newListener t; promise := Pending;
                 chained := Pending; awaited := Pending |} Hquiet) as (-> & Hl & _).
  rewrite raceRun_cons. simpl raceStep. rewrite (dispatch_push _ _ _ Hpush).
  simpl fst. simpl snd. unfold raceEmitted. simpl listener. rewrite Hl.
  rewrite decide_True by (simpl; apply elem_of_app; right; apply list_elem_of_here).
  by apply awaited_settled.
Qed.

Lemma race_modal_first_witness :
  awaited (snd (_raceAgainstModalStates newTab
                  ((Page <$> [evRequest requestA]) ++
                   [Page (evDialog alertDialog);
                    ActionRejects "Error: page closed"; Page (evFileChooser 2)])))
  = Fulfilled [dialogState alertDialog].
Proof.
  apply (race_modal_first newTab [evRequest requestA] (evDialog alertDialog)
           (dialogState alertDialog)
           [ActionRejects "Error: page closed"; Page (evFileChooser 2)]).
  - reflexivity.
  - intros e' He'. apply list_elem_of_singleton in He' as ->. reflexivity.
  - reflexivity.
Defined.

(** C3. The race starts with no modal state, which registers its listener.
    Page events that push no modal state may come first; then the action
    fulfils. The caller receives the empty array, and at that point the
    listener is not registered any more. Whatever page events come later,
    modal states among them, the caller's result stays the empty array and
    the listener is never called: the promise it would resolve stays
    pending. *)
Theorem race_action_first (t : Tab) (before after : list PageEvent) :
  _modalStates t = [] →
  (∀ e, e ∈ before → pushes e = None) →
  let begun := raceStart t in
  let returned_ := raceRun begun ((Page <$> before) ++ [ActionFulfils]) in
  let later := raceRun returned_ (Page <$> after) in
  listener (snd begun) ∈ listeners (fst begun) ∧
  awaited (snd returned_) = Fulfilled [] ∧
  (listener (snd returned_) ∉ listeners (fst returned_)) ∧
  awaited (snd later) = Fulfilled [] ∧
  promise (snd later) = Pending ∧
  (listener (snd later) ∉ listeners (fst later)).
Proof.
  intros Hidle Hquiet. cbv zeta.
  rewrite (raceStart_idle t Hidle), raceRun_app.
  destruct (raceRun_quiet before (once (newListener t) t)
              {| started := true; listener := newListener t; promise := Pending;
                 chained := Pending; awaited := Pending |} Hquiet) as (-> & Hl & _).
  rewrite raceRun_cons.
  change (raceRun ?x []) with x. simpl raceStep.
  set (tb := handleAll before (once (newListener t) t)) in *.
  set (r := withPromises _ _ _).
  assert (listener r ∉ listeners (off (newListener t) tb)) as Hoff.
  { simpl. rewrite Hl. simpl. intros [H _]%list_elem_of_filter. done. }
  destruct (raceRun_unregistered after _ _ Hoff) as [-> Hlater].
  split; [simpl; apply elem_of_app; right; apply list_elem_of_here|].
  repeat split; done.
Qed.

Lemma race_action_first_witness :
  awaited (snd (raceRun (raceRun (raceStart newTab)
                           ((Page <$> [evRequest requestA]) ++ [ActionFulfils]))
                        (Page <$> [evDialog alertDialog])))
  = Fulfilled [].
Proof.
  refine (proj1 (proj2 (proj2 (proj2
            (race_action_first newTab [evRequest requestA] [evDialog alertDialog] eq_refl _))))).
  intros e' He'. apply list_elem_of_singleton in He' as ->. reflexivity.
Defined.

(** ** captureSnapshot *)

Lemma captureSnapshot_app mode t evs evs' :
  captureSnapshot mode t (evs ++ evs') = foldl captureStep (captureSnapshot mode t evs) evs'.
Proof. apply foldl_app. Qed.

(** A capture that has returned keeps its result. *)
Lemma returned_kept tc ev :
  returned (snd tc) ≠ Pending →
  returned (snd (captureStep tc ev)) = returned (snd tc).
Proof.
  destruct tc as [t [r st ts ret]]. simpl. intros Hret.
  assert (∀ t' r' st' ts',
    returned (snd (captureResume
      (t', {| race := r'; stage := st'; tabSnapshot := ts'; returned := ret |}))) = ret) as Hres.
  { intros. unfold captureResume. by destruct ret. }
  unfold captureStep, captureEvent. destruct ev as [e | value | reason].
  - destruct (dispatch e t) as [t' em]. apply Hres.
  - destruct st as [| snapshot pageUrl |]; simpl; try apply Hres.
    destruct (started r); apply Hres.
  - destruct st as [| snapshot pageUrl |]; simpl;
      try (destruct (started r)); apply Hres.
Qed.

Lemma returned_settled evs tc s :
  returned (snd tc) = Fulfilled s →
  returned (snd (foldl captureStep tc evs)) = Fulfilled s.
Proof.
  revert tc. induction evs as [|ev evs IH]; intros tc H; [done|].
  simpl. apply IH. rewrite returned_kept; [done|]. by rewrite H.
Qed.

Lemma captureStart_inFlight t :
  returned (snd (captureStart t)) = Pending → inFlight (captureStart t).
Proof.
  unfold captureStart, raceStart. destruct (_modalStates t) eqn:E; simpl; [|done].
  intros _. unfold inFlight. simpl. repeat split; try done.
  apply elem_of_app. right. apply list_elem_of_here.
Qed.

Lemma captureStep_inFlight tc ev :
  inFlight tc →
  returned (snd (captureStep tc ev)) = Pending → inFlight (captureStep tc ev).
Proof.
  destruct tc as [t [[sd l p ch aw] st ts ret]]. unfold inFlight. simpl.
  intros (-> & Hst & -> & -> & -> & -> & Hl).
  unfold captureStep, captureEvent. destruct ev as [e | value | reason].
  - destruct (pushes e) as [ms|] eqn:E.
    + rewrite (dispatch_push _ _ _ E). unfold raceEmitted. simpl.
      rewrite decide_True by done. simpl. by destruct ret.
    + destruct (dispatch_quiet e t E) as (Hem & Hls & _). unfold handle in Hls.
      destruct (dispatch e t) as [t' em]. simpl in Hem, Hls. subst em. simpl.
      destruct ret; simpl; try done. intros _. rewrite Hls. done.
  - destruct st as [| snapshot pageUrl |]; simpl; [| |done].
    + by destruct ret.
    + by destruct ret.
  - destruct st as [| snapshot pageUrl |]; simpl; [| |done]; by destruct ret.
Qed.

Lemma captureSnapshot_inFlight mode t evs :
  returned (snd (captureSnapshot mode t evs)) = Pending →
  inFlight (captureSnapshot mode t evs).
Proof.
  induction evs as [|ev evs IH] using rev_ind.
  - apply captureStart_inFlight.
  - rewrite captureSnapshot_app. simpl. intros H.
    apply captureStep_inFlight; [|done]. apply IH.
    destruct (returned (snd (captureSnapshot mode t evs))) eqn:E; [done| |];
      rewrite returned_kept, E in H by (by rewrite E); done.
Qed.


(** C5. A capture has not returned after the events [pre].
    - When its action is waiting for the title, the last answer it needs,
      and the title arrives, the capture returns the snapshot whose console
      list is the recent journal as it is at that moment; the recent
      journal is empty afterwards and the full journal is as it was.
    - When instead an event pushes a modal state, the capture returns a
      snapshot with that one modal state, the URL of the page, an empty
      title, an empty aria snapshot, no console messages and no downloads,
      whatever happens afterwards; the recent journal is not drained. *)
Theorem captureSnapshot_console (mode : Mode) (t : Tab) (pre : list CaptureEvent) :
  returned (snd (captureSnapshot mode t pre)) = Pending →
  let now := fst (captureSnapshot mode t pre) in
  (∀ snapshot pageUrl value,
     stage (snd (captureSnapshot mode t pre)) = awaitingTitle snapshot pageUrl →
     let after := captureSnapshot mode t (pre ++ [cResolves value]) in
     returned (snd after)
       = Fulfilled {| url := pageUrl; title := value; ariaSnapshot := snapshot;
                      modalStates := [];
                      consoleMessages := _recentConsoleMessages now;
                      downloads := _downloads now |} ∧
     _recentConsoleMessages (fst after) = [] ∧
     _consoleMessages (fst after) = _consoleMessages now) ∧
  (∀ e modalState rest,
     pushes e = Some modalState →
     returned (snd (captureSnapshot mode t (pre ++ cPage e :: rest)))
       = Fulfilled {| url := page_url now; title := ""; ariaSnapshot := "";
                      modalStates := [modalState]; consoleMessages := [];
                      downloads := [] |} ∧
     _recentConsoleMessages (fst (captureSnapshot mode t (pre ++ [cPage e])))
       = _recentConsoleMessages now ∧
     _consoleMessages (fst (captureSnapshot mode t (pre ++ [cPage e])))
       = _consoleMessages now).
Proof.
  intros Hret. pose proof (captureSnapshot_inFlight mode t pre Hret) as Hin.
  cbv zeta. destruct (captureSnapshot mode t pre) as [tb [[sd l p ch aw] st ts ret]] eqn:E.
  unfold inFlight in Hin. simpl in Hin, Hret.
  destruct Hin as (-> & Hst & -> & -> & -> & -> & Hl). subst ret. split.
  - intros snapshot pageUrl value Hstage. simpl in Hstage. subst st.
    rewrite captureSnapshot_app, E. simpl. done.
  - intros e modalState rest Hpush.
    assert (captureStep
              (tb, {| race := {| started := true; listener := l; promise := Pending;
                                 chained := Pending; awaited := Pending |};
                      stage := st; tabSnapshot := None; returned := Pending |})
              (cPage e)
            = (set_modal (_modalStates tb ++ [modalState]) [] tb,
               {| race := {| started := true; listener := l;
                             promise := Fulfilled [modalState];
                             chained := Pending; awaited := Fulfilled [modalState] |};
                  stage := st; tabSnapshot := None;
                  returned :=
                    Fulfilled {| url := page_url tb; title := ""; ariaSnapshot := "";
                                 modalStates := [modalState]; consoleMessages := [];
                                 downloads := [] |} |})) as Hstep.
    { unfold captureStep, captureEvent. rewrite (dispatch_push _ _ _ Hpush).
      unfold raceEmitted. simpl. by rewrite decide_True. }
    rewrite !captureSnapshot_app, E. simpl foldl. rewrite Hstep.
    split; [by apply returned_settled | done].
Qed.

(** A message that arrives while the capture runs is in the snapshot. *)
Lemma captureSnapshot_console_witness :
  let after :=
    captureSnapshot full (handle (evConsole appLog) newTab)
      ([cResolves "- button [ref=e1]"; cPage (evConsole lateWarning)] ++ [cResolves "Home"]) in
  returned (snd after)
    = Fulfilled {| url := "about:blank"; title := "Home"; ariaSnapshot := "- button [ref=e1]";
                   modalStates := []; consoleMessages := [appLog; lateWarning];
                   downloads := [] |} ∧
  _recentConsoleMessages (fst after) = [] ∧
  _consoleMessages (fst after) = [appLog; lateWarning].
Proof.
  exact (proj1 (captureSnapshot_console full (handle (evConsole appLog) newTab)
                  [cResolves "- button [ref=e1]"; cPage (evConsole lateWarning)] eq_refl)
           "- button [ref=e1]" "about:blank" "Home" eq_refl).
Defined.

(** * Further properties *)

(** ** The network journal as a whole *)

Lemma map_get_set_ne {V} k k' (v : V) m :
  k ≠ k' → map_get k' (map_set k v m) = map_get k' m.
Proof.
  intros Hne. induction m as [|[k0 v0] m IH]; simpl.
  - by destruct (decide (k' = k)); [subst|].
  - destruct (decide (k = k0)) as [->|Hk]; simpl.
    + destruct (decide (k' = k0)); [by subst | done].
    + destruct (decide (k' = k0)); [done | apply IH].
Qed.

Lemma map_set_keys {V} k (v : V) m :
  fst <$> map_set k v m = if decide (k ∈ fst <$> m) then fst <$> m else (fst <$> m) ++ [k].
Proof.
  induction m as [|[k0 v0] m IH]; csimpl.
  - done.
  - destruct (decide (k = k0)) as [->|Hk]; csimpl.
    + rewrite decide_True; [done | left].
    + rewrite IH. destruct (decide (k ∈ fst <$> m)) as [Hin|Hin].
      * rewrite decide_True; [done | by right].
      * rewrite decide_False; [done|]. by intros [?|?]%elem_of_cons.
Qed.

Lemma elem_of_map_set {V} k (v : V) m k' v' :
  (k', v') ∈ map_set k v m → (k' = k ∧ v' = v) ∨ (k', v') ∈ m.
Proof.
  induction m as [|[k0 v0] m IH]; csimpl.
  - intros [= -> ->]%list_elem_of_singleton. by left.
  - destruct (decide (k = k0)) as [->|Hk].
    + intros [[= -> ->] | H]%elem_of_cons; [by left | right; by right].
    + intros [[= -> ->] | H]%elem_of_cons; [right; by left|].
      destruct (IH H) as [? | ?]; [by left | right; by right].
Qed.

Lemma map_set_values_NoDup {V} k (v : V) m :
  NoDup (snd <$> m) → v ∉ snd <$> m → NoDup (snd <$> map_set k v m).
Proof.
  induction m as [|[k0 v0] m IH]; csimpl; intros Hnd Hv.
  - apply NoDup_singleton.
  - apply NoDup_cons in Hnd as [Hv0 Hnd]. apply not_elem_of_cons in Hv as [Hne Hv].
    destruct (decide (k = k0)) as [->|Hk]; csimpl.
    + by apply NoDup_cons.
    + apply NoDup_cons. split; [|by apply IH].
      intros ([k1 v1] & Heq & Hin)%list_elem_of_fmap. simpl in Heq. subst v1.
      apply elem_of_map_set in Hin as [[_ ->] | Hin]; [done|].
      apply Hv0. apply list_elem_of_fmap. by exists (k1, v0).
Qed.

(** A new record, at the end of the store, under its URL. *)
Lemma journalOk_record (data : NetworkRequestData) t :
  journalOk t →
  journalOk (set_network (store t ++ [data])
               (map_set (rq_url (request data)) (length (store t)) (_requests t)) t).
Proof.
  intros (Hk & Ha & Hr). unfold journalOk. simpl.
  assert (length (store t) ∉ snd <$> _requests t) as Hfresh.
  { intros ([u a] & Heq & Hin)%list_elem_of_fmap. simpl in Heq. subst a.
    destruct (Hr _ _ Hin) as (r & Hl%lookup_lt_Some & _). lia. }
  split; [|split].
  - rewrite map_set_keys. destruct (decide _); [done|].
    apply NoDup_app. split; [done|]. split; [|apply NoDup_singleton].
    by intros x Hx ->%list_elem_of_singleton.
  - by apply map_set_values_NoDup.
  - intros u a [[-> ->] | Hin]%elem_of_map_set.
    + exists data. split; [by apply list_lookup_middle | done].
    + destruct (Hr _ _ Hin) as (r & Hl & Hu). exists r. split; [|done].
      rewrite lookup_app_l; [done | by eapply lookup_lt_Some].
Qed.

Lemma journalOk_mutate u f t :
  (∀ r, request (f r) = request r) → journalOk t → journalOk (mutate u f t).
Proof.
  intros Hf (Hk & Ha & Hr). unfold mutate.
  destruct (map_get u (_requests t)) as [a0|]; [|done].
  unfold journalOk. simpl. split; [done|]. split; [done|].
  intros u' a Hin. destruct (Hr _ _ Hin) as (r & Hl & Hu).
  rewrite list_lookup_alter. destruct (decide (a0 = a)) as [->|].
  - exists (f r). rewrite Hl. split; [done | by rewrite Hf].
  - by exists r.
Qed.

Lemma journalOk_console m t : journalOk t → journalOk (_handleConsoleMessage m t).
Proof. unfold _handleConsoleMessage. by destruct (negb _). Qed.

Lemma journalOk_step t s : journalOk t → journalOk (step t s).
Proof.
  intros H. destruct s as [e | m | rq rs]; simpl.
  - unfold handle. destruct e; simpl; try done.
    + by apply journalOk_console.
    + apply (journalOk_record
               {| request := rq; response := None; status := pending; error := None |} t H).
    + by apply journalOk_mutate.
    + by apply journalOk_mutate.
    + by apply journalOk_mutate.
    + unfold journalOk. simpl. split; [apply NoDup_nil_2|].
      split; [apply NoDup_nil_2|]. by intros u a ?%elem_of_nil.
  - by apply journalOk_console.
  - apply (journalOk_record
             {| request := rq; response := rs; status := finished; error := None |} t H).
Qed.

Lemma journalOk_run t steps : journalOk t → journalOk (run t steps).
Proof.
  revert t. induction steps as [|s steps IH]; intros t H; [done|].
  apply IH. by apply journalOk_step.
Qed.

Lemma journalOk_newTab : journalOk newTab.
Proof.
  unfold journalOk. simpl. split; [apply NoDup_nil_2|].
  split; [apply NoDup_nil_2|]. by intros u a ?%elem_of_nil.
Qed.

Lemma requests_urls t :
  journalOk t → (λ r, rq_url (request r)) <$> requests t = fst <$> _requests t.
Proof.
  intros (_ & _ & Hr). unfold requests, map_values.
  induction (_requests t) as [|[u a] m IH]; [done|]. simpl.
  destruct (Hr u a) as (r & -> & Hu); [left|]. simpl. rewrite Hu. f_equal.
  apply IH. intros u' a' Hin. apply Hr. by right.
Qed.

(** X1. Whatever page events and initialization steps a new tab goes
    through, [requests()] lists one record for each URL of the journal, in
    the order of the journal, each with a request of that URL, and no URL
    twice. *)
Theorem requests_one_per_url (steps : list Step) :
  let t := run newTab steps in
  (λ r, rq_url (request r)) <$> requests t = fst <$> _requests t ∧
  NoDup ((λ r, rq_url (request r)) <$> requests t).
Proof.
  simpl. pose proof (journalOk_run newTab steps journalOk_newTab) as H.
  rewrite (requests_urls _ H). split; [done | apply H].
Qed.

Lemma run_snoc t steps s : run t (steps ++ [s]) = step (run t steps) s.
Proof. unfold run. by rewrite foldl_app. Qed.

(** X2. As long as the page is not closed, the URLs of the journal are
    those it had and those of the requests made or backfilled since: a
    [response], [requestfinished] or [requestfailed] event never adds a URL,
    and nothing removes one. *)
Theorem journal_urls (t : Tab) (steps : list Step) (u : string) :
  onPage evClose ∉ steps →
  u ∈ fst <$> _requests (run t steps) ↔
  u ∈ fst <$> _requests t ∨ u ∈ omap requested steps.
Proof.
  induction steps as [|s steps IH] using rev_ind; intros Hc.
  - simpl. split; [by left | intros [?|?%elem_of_nil]; done].
  - assert (onPage evClose ∉ steps) as Hc' by (intros ?; apply Hc, elem_of_app; by left).
    rewrite run_snoc.
    enough (u ∈ fst <$> _requests (step (run t steps) s) ↔
            u ∈ fst <$> _requests (run t steps) ∨ u ∈ omap requested [s]) as Hs.
    { rewrite Hs, (IH Hc'), omap_app, elem_of_app. tauto. }
    assert (∀ x f, fst <$> _requests (mutate x f (run t steps)) = fst <$> _requests (run t steps))
      as Hmut.
    { intros x f. unfold mutate. by destruct (map_get x _). }
    assert (∀ data : NetworkRequestData,
      u ∈ fst <$> map_set (rq_url (request data)) (length (store (run t steps)))
                    (_requests (run t steps)) ↔
      u ∈ fst <$> _requests (run t steps) ∨ u ∈ [rq_url (request data)]) as Hset.
    { intros data. rewrite map_set_keys. destruct (decide _) as [Hin|Hin].
      - split; [by left | intros [?| ->%list_elem_of_singleton]; done].
      - by rewrite elem_of_app. }
    assert (∀ P : Prop, P ↔ P ∨ u ∈ @nil string) as Hsame.
    { intros P. split; [by left | intros [?|?%elem_of_nil]; done]. }
    destruct s as [e | m | rq rs]; simpl.
    + unfold handle. destruct e; simpl.
      * unfold _handleConsoleMessage. destruct (negb _); apply Hsame.
      * apply (Hset {| request := rq; response := None; status := pending; error := None |}).
      * unfold _handleResponse. rewrite Hmut. apply Hsame.
      * unfold _handleRequestFinished. rewrite Hmut. apply Hsame.
      * unfold _handleRequestFailed. rewrite Hmut. apply Hsame.
      * exfalso. apply Hc, elem_of_app. right. left.
      * apply Hsame.
      * apply Hsame.
      * apply Hsame.
    + unfold _handleConsoleMessage. destruct (negb _); apply Hsame.
    + apply (Hset {| request := rq; response := rs; status := finished; error := None |}).
Qed.

Lemma journal_urls_witness :
  "https://a/x" ∈ fst <$> _requests
     (run newTab [onPage (evResponse responseA); onPage (evRequest requestA);
                  onPage (evRequestFailed requestA_failed)]).
Proof.
  apply (journal_urls newTab
           [onPage (evResponse responseA); onPage (evRequest requestA);
            onPage (evRequestFailed requestA_failed)] "https://a/x").
  - intros H. repeat (apply elem_of_cons in H as [H|H]; [discriminate|]).
    by apply elem_of_nil in H.
  - right. simpl. left.
Defined.

Lemma map_get_elem {V} k (v : V) m : map_get k m = Some v → (k, v) ∈ m.
Proof.
  induction m as [|[k0 v0] m IH]; simpl; [done|].
  destruct (decide (k = k0)) as [->|Hk].
  - intros [= ->]. left.
  - intros H. right. by apply IH.
Qed.

Lemma map_get_None {V} k (m : list (string * V)) : map_get k m = None ↔ k ∉ fst <$> m.
Proof.
  induction m as [|[k0 v0] m IH]; csimpl.
  - split; [intros _; apply not_elem_of_nil | done].
  - destruct (decide (k = k0)) as [->|Hk].
    + split; [done | intros H; exfalso; apply H; left].
    + rewrite IH, not_elem_of_cons. tauto.
Qed.

Lemma handleAll_run es t : handleAll es t = run t (onPage <$> es).
Proof. revert t. induction es as [|e es IH]; intros t; [done | apply IH]. Qed.

Lemma recordsOk_handle e t : journalOk t → recordsOk t → recordsOk (handle e t).
Proof.
  intros (_ & _ & Hj) Hr.
  assert (∀ u f,
    (∀ r, request (f r) = request r) →
    (∀ r, status (f r) = pending → status r = pending ∧ error (f r) = error r) →
    (∀ r rs, rq_url (request r) = u → response (f r) = Some rs →
             response r = Some rs ∨ rs_url rs = u) →
    recordsOk (mutate u f t)) as Hmut.
  { intros u f Hf1 Hf2 Hf3. unfold mutate.
    destruct (map_get u (_requests t)) as [a0|] eqn:E; [|done].
    intros a r. simpl. rewrite list_lookup_alter.
    destruct (decide (a0 = a)) as [->|]; [|apply Hr].
    destruct (store t !! a) as [r0|] eqn:El; [|done]. intros [= <-].
    destruct (Hr _ _ El) as [H1 H2].
    destruct (Hj _ _ (map_get_elem _ _ _ E)) as (r1 & Hl1 & Hu).
    rewrite El in Hl1. injection Hl1 as <-. split.
    - intros rs Hrs. rewrite Hf1. destruct (Hf3 _ _ Hu Hrs) as [?| ->]; [by apply H1 | done].
    - intros Hp. destruct (Hf2 _ Hp) as [Hp' ->]. by apply H2. }
  unfold handle. destruct e; simpl; try done.
  - unfold _handleConsoleMessage. by destruct (negb _).
  - intros a r. unfold _handleRequest. simpl. intros Hl.
    apply lookup_app_Some in Hl as [Hl | [_ Hl]]; [by apply (Hr a r)|].
    apply list_lookup_singleton_Some in Hl as [_ <-]. done.
  - apply Hmut; simpl; [done | done |]. intros r rs' Hu [= <-]. by right.
  - apply Hmut; simpl; [done | done |]. intros r rs' Hu H. by left.
  - apply Hmut; simpl; [done | done |]. intros r rs' Hu H. by left.
Qed.

Lemma handleAll_ok es t :
  journalOk t → recordsOk t → journalOk (handleAll es t) ∧ recordsOk (handleAll es t).
Proof.
  revert t. induction es as [|e es IH]; intros t Hj Hr; [done|].
  rewrite handleAll_cons. apply IH.
  - apply (journalOk_step t (onPage e) Hj).
  - by apply recordsOk_handle.
Qed.

Lemma requests_in_store t r : r ∈ requests t → ∃ a, store t !! a = Some r.
Proof.
  unfold requests. intros (a & _ & Ha)%list_elem_of_omap. by exists a.
Qed.

(** X3. Whatever page events a new tab has handled, every record that
    [requests()] returns is consistent: when it has a response, the response
    has the URL of the record's request, and while it is pending it has no
    error text. *)
Theorem requests_consistent (es : list PageEvent) (r : NetworkRequestData) :
  r ∈ requests (handleAll es newTab) →
  (∀ rs, response r = Some rs → rs_url rs = rq_url (request r)) ∧
  (status r = pending → error r = None).
Proof.
  intros (a & Ha)%requests_in_store.
  destruct (handleAll_ok es newTab journalOk_newTab) as [_ Hr].
  - by intros a' r' ?.
  - by apply (Hr a r).
Qed.

Lemma requests_consistent_witness :
  let r := {| request := requestA; response := Some responseA;
              status := failed; error := Some "net::ERR_CONNECTION_REFUSED" |} in
  (∀ rs, response r = Some rs → rs_url rs = rq_url (request r)) ∧
  (status r = pending → error r = None).
Proof.
  apply (requests_consistent
           [evRequest requestA; evResponse responseA; evRequestFailed requestA_failed]).
  vm_compute. left.
Defined.

(** X4. Last write wins. For a well-formed journal, a [request] event
    for a URL that the journal has already replaces the record of that URL by
    a new pending one, without response and without error text: the URLs of
    the journal and their order stay as they are, and [requests()] is as long
    as before. For a new URL the record is added at the end. *)
Theorem request_again_replaces (t : Tab) (rq : Request) :
  journalOk t →
  let t' := handle (evRequest rq) t in
  recordOf (rq_url rq) t'
    = Some {| request := rq; response := None; status := pending; error := None |} ∧
  (rq_url rq ∈ fst <$> _requests t →
     fst <$> _requests t' = fst <$> _requests t ∧
     length (requests t') = length (requests t)) ∧
  (rq_url rq ∉ fst <$> _requests t →
     fst <$> _requests t' = (fst <$> _requests t) ++ [rq_url rq] ∧
     length (requests t') = S (length (requests t))).
Proof.
  intros Hj. simpl.
  pose proof (journalOk_step t (onPage (evRequest rq)) Hj) as Hj'. simpl in Hj'.
  assert (∀ x, journalOk x → length (requests x) = length (fst <$> _requests x)) as Hlen.
  { intros x Hx. by rewrite <- (requests_urls x Hx), !length_fmap. }
  rewrite (Hlen _ Hj'), (Hlen _ Hj). unfold handle. simpl.
  split; [apply recordOf_handleRequest|].
  unfold _handleRequest. simpl. rewrite map_set_keys. split; intros Hin.
  - by rewrite decide_True.
  - rewrite decide_False by done. split; [done|]. rewrite length_app. simpl. lia.
Qed.

Lemma request_again_replaces_witness :
  let t := handleAll [evRequest requestA; evResponse responseA; evRequestFinished requestA] newTab in
  fst <$> _requests (handle (evRequest requestB) t) = fst <$> _requests t ∧
  length (requests (handle (evRequest requestB) t)) = length (requests t).
Proof.
  refine (proj1 (proj2 (request_again_replaces
            (handleAll [evRequest requestA; evResponse responseA; evRequestFinished requestA] newTab)
            requestB _)) _).
  - rewrite handleAll_run. apply journalOk_run, journalOk_newTab.
  - vm_compute. left.
Defined.

(** X5. Once the journal is empty, as it is after the page has closed or
    the logs were reset, it stays empty until the next [request] event:
    [response], [requestfinished] and [requestfailed] events for requests
    made earlier create no record and change none. *)
Theorem journal_stays_empty (t : Tab) (es : list PageEvent) :
  _requests t = [] →
  (∀ rq, evRequest rq ∉ es) →
  _requests (handleAll es t) = [] ∧
  store (handleAll es t) = store t ∧
  requests (handleAll es t) = [].
Proof.
  revert t. induction es as [|e es IH]; intros t He Hq.
  - unfold requests, handleAll. simpl. by rewrite He.
  - rewrite handleAll_cons.
    assert (_requests (handle e t) = [] ∧ store (handle e t) = store t) as [H1 H2].
    { unfold handle. destruct e; simpl; try done.
      - unfold _handleConsoleMessage. by destruct (negb _).
      - exfalso. apply (Hq rq). left.
      - unfold _handleResponse, mutate. by rewrite He.
      - unfold _handleRequestFinished, mutate. by rewrite He.
      - unfold _handleRequestFailed, mutate. by rewrite He. }
    destruct (IH (handle e t) H1) as (IH1 & IH2 & IH3).
    { intros rq Hin. apply (Hq rq). by right. }
    by rewrite IH2.
Qed.

Lemma journal_stays_empty_witness :
  requests (handleAll [evResponse responseA; evRequestFailed requestA_failed]
              (resetLogs (handle (evRequest requestA) newTab))) = [].
Proof.
  apply (journal_stays_empty (resetLogs (handle (evRequest requestA) newTab))
           [evResponse responseA; evRequestFailed requestA_failed] eq_refl).
  intros rq H. repeat (apply elem_of_cons in H as [H|H]; [discriminate|]).
  by apply elem_of_nil in H.
Defined.

(** ** Modal states and console journals under page events *)

Lemma handle_modalStates e t :
  _modalStates (handle e t) = _modalStates t ++ option_list (pushes e).
Proof.
  destruct (pushes e) as [ms|] eqn:E.
  - unfold handle. by rewrite (dispatch_push _ _ _ E).
  - destruct (dispatch_quiet e t E) as (_ & _ & ->). simpl. by rewrite app_nil_r.
Qed.

(** X6. Page events only ever push on the stack of modal states: after
    any events the stack is what it was, followed by the states that the
    [dialog] and [filechooser] events among them pushed, in their order.
    Closing the page does not clear it. *)
Theorem modal_stack_grows (t : Tab) (es : list PageEvent) :
  _modalStates (handleAll es t) = _modalStates t ++ omap pushes es.
Proof.
  revert t. induction es as [|e es IH]; intros t.
  - unfold handleAll. simpl. by rewrite app_nil_r.
  - rewrite handleAll_cons, IH, handle_modalStates, <- app_assoc. f_equal.
    simpl. by destruct (pushes e).
Qed.

(** X7. Script evaluation is blocked after page events exactly when it
    was blocked before or one of the events was a [dialog]: file choosers do
    not block it, and no page event unblocks it. So [waitForTimeout] sleeps
    in the controller, for the time asked, exactly in that case. *)
Theorem blocked_by_dialogs (t : Tab) (es : list PageEvent) (time : nat) :
  (_javaScriptBlocked (handleAll es t) = true ↔
     _javaScriptBlocked t = true ∨ ∃ d, evDialog d ∈ es) ∧
  (waitForTimeout time (handleAll es t) = sleepInController time ↔
     _javaScriptBlocked t = true ∨ ∃ d, evDialog d ∈ es).
Proof.
  assert (_javaScriptBlocked (handleAll es t) = true ↔
          _javaScriptBlocked t = true ∨ ∃ d, evDialog d ∈ es) as H.
  { revert t. induction es as [|e es IH]; intros t.
    - split; [by left | intros [?|(d & ?%elem_of_nil)]; done].
    - rewrite handleAll_cons, IH. unfold _javaScriptBlocked at 1.
      rewrite handle_modalStates, existsb_app, orb_true_iff.
      fold (_javaScriptBlocked t). split.
      + intros [[H|H]|(d & Hd)]; [by left | | right; exists d; by right].
        destruct e; simpl in H; try done. right. eexists. left.
      + intros [H|(d & [<-|Hd]%elem_of_cons)];
          [left; by left | left; by right | right; eauto]. }
  split; [done|]. rewrite <- H. unfold waitForTimeout.
  by destruct (_javaScriptBlocked (handleAll es t)).
Qed.

Lemma handle_console e t :
  e ≠ evClose →
  _consoleMessages (handle e t) = _consoleMessages t ++ accepted (option_list (delivered e)) ∧
  _recentConsoleMessages (handle e t)
    = _recentConsoleMessages t ++ accepted (option_list (delivered e)).
Proof.
  intros Hc. unfold handle.
  destruct e; simpl; try done; try (by rewrite !app_nil_r).
  - unfold _handleConsoleMessage, accepted. rewrite filter_cons, filter_nil.
    destruct (_shouldCaptureConsoleMessage m); simpl; by rewrite ?app_nil_r.
  - unfold _handleResponse, mutate. destruct (map_get _ _); simpl; by rewrite !app_nil_r.
  - unfold _handleRequestFinished, mutate. destruct (map_get _ _); simpl; by rewrite !app_nil_r.
  - unfold _handleRequestFailed, mutate. destruct (map_get _ _); simpl; by rewrite !app_nil_r.
Qed.

(** X8. As long as the page is not closed, both console journals grow by
    the same messages: those that the events delivered and the noise filter
    let through, in the order of arrival. Nothing else adds to them, and
    nothing removes a message. *)
Theorem console_journals_grow (t : Tab) (es : list PageEvent) :
  evClose ∉ es →
  _consoleMessages (handleAll es t)
    = _consoleMessages t ++ accepted (omap delivered es) ∧
  _recentConsoleMessages (handleAll es t)
    = _recentConsoleMessages t ++ accepted (omap delivered es).
Proof.
  revert t. induction es as [|e es IH]; intros t Hc.
  - unfold handleAll. simpl. by rewrite !app_nil_r.
  - apply not_elem_of_cons in Hc as [Hne Hc].
    rewrite handleAll_cons. destruct (IH (handle e t) Hc) as [-> ->].
    destruct (handle_console e t) as [-> ->]; [done|].
    rewrite <- !app_assoc. unfold accepted. simpl.
    destruct (delivered e); simpl; by rewrite <- ?filter_app.
Qed.

Lemma console_journals_grow_witness :
  _consoleMessages (handleAll [evConsole appLog; evConsole hmrMessage; evConsole lateWarning] newTab)
    = [] ++ accepted [appLog; hmrMessage; lateWarning] ∧
  _recentConsoleMessages
      (handleAll [evConsole appLog; evConsole hmrMessage; evConsole lateWarning] newTab)
    = [] ++ accepted [appLog; hmrMessage; lateWarning].
Proof.
  apply (console_journals_grow newTab [evConsole appLog; evConsole hmrMessage; evConsole lateWarning]).
  intros H. repeat (apply elem_of_cons in H as [H|H]; [discriminate|]).
  by apply elem_of_nil in H.
Defined.

(** ** More on captureSnapshot *)

Lemma recentIsTail_handle e t : recentIsTail t → recentIsTail (handle e t).
Proof.
  unfold recentIsTail. intros H.
  assert (e = evClose ∨ e ≠ evClose) as [->|Hne] by (destruct e; (by left) || (by right)).
  - apply suffix_nil.
  - destruct (handle_console e t Hne) as [-> ->]. by apply suffix_app.
Qed.

Lemma recentIsTail_resume tc : recentIsTail (fst tc) → recentIsTail (fst (captureResume tc)).
Proof.
  destruct tc as [t c]. unfold captureResume. simpl. intros H.
  destruct (returned c); [|done..].
  destruct (awaited (race c)); [done| |done].
  destruct (tabSnapshot c); [|done]. apply suffix_nil.
Qed.

Lemma recentIsTail_step tc ev : recentIsTail (fst tc) → recentIsTail (fst (captureStep tc ev)).
Proof.
  intros H. apply recentIsTail_resume. destruct tc as [t c]. simpl in H.
  unfold captureEvent. destruct ev as [e | value | reason].
  - pose proof (recentIsTail_handle e t H) as He. unfold handle in He.
    by destruct (dispatch e t).
  - destruct (stage c); simpl; [done | | done]. by destruct (started (race c)).
  - destruct (stage c); simpl; [| | done]; by destruct (started (race c)).
Qed.

(** X9. The recent console journal is always the end of the full one. If
    that holds when [captureSnapshot] is called, it holds after every event
    that follows, page events, the answers of the page and the return of the
    capture included. So the console list of a snapshot is never anything but
    the last messages of [consoleMessages()]. *)
Theorem recent_journal_is_tail (mode : Mode) (t : Tab) (evs : list CaptureEvent) :
  recentIsTail t → recentIsTail (fst (captureSnapshot mode t evs)).
Proof.
  intros H. induction evs as [|ev evs IH] using rev_ind.
  - unfold captureSnapshot. simpl foldl. unfold captureStart, raceStart.
    destruct (_modalStates t); cbv beta iota zeta; by apply recentIsTail_resume.
  - rewrite captureSnapshot_app. simpl. by apply recentIsTail_step.
Qed.

Lemma recent_journal_is_tail_witness :
  recentIsTail
    (fst (captureSnapshot full newTab
            [cPage (evConsole appLog); cResolves "- button [ref=e1]"; cResolves "Home";
             cPage (evConsole lateWarning)])).
Proof.
  apply (recent_journal_is_tail full newTab). apply suffix_nil.
Defined.

Lemma returned_final evs tc :
  returned (snd tc) ≠ Pending →
  returned (snd (foldl captureStep tc evs)) = returned (snd tc).
Proof.
  revert tc. induction evs as [|ev evs IH]; intros tc H; [done|].
  simpl. rewrite IH; rewrite returned_kept; done.
Qed.



(** X11. A capture has not returned after the events [pre]. When the
    page then rejects what the action awaits, the capture rejects with the
    same reason and stays rejected; the console journals are as they were,
    the recent one is not drained. *)
Theorem captureSnapshot_rejects (mode : Mode) (t : Tab) (pre rest : list CaptureEvent)
    (reason : string) :
  returned (snd (captureSnapshot mode t pre)) = Pending →
  returned (snd (captureSnapshot mode t (pre ++ cRejects reason :: rest))) = Rejected reason ∧
  _recentConsoleMessages (fst (captureSnapshot mode t (pre ++ [cRejects reason])))
    = _recentConsoleMessages (fst (captureSnapshot mode t pre)) ∧
  _consoleMessages (fst (captureSnapshot mode t (pre ++ [cRejects reason])))
    = _consoleMessages (fst (captureSnapshot mode t pre)).
Proof.
  intros Hret. pose proof (captureSnapshot_inFlight mode t pre Hret) as Hin.
  rewrite !captureSnapshot_app.
  destruct (captureSnapshot mode t pre) as [tb [[sd l p ch aw] st ts ret]].
  unfold inFlight in Hin. simpl in Hin, Hret.
  destruct Hin as (-> & Hst & -> & -> & -> & -> & Hl). subst ret.
  simpl foldl.
  assert (captureStep
            (tb, {| race := {| started := true; listener := l; promise := Pending;
                               chained := Pending; awaited := Pending |};
                    stage := st; tabSnapshot := None; returned := Pending |})
            (cRejects reason)
          = (tb, {| race := {| started := true; listener := l; promise := Pending;
                               chained := Rejected reason; awaited := Rejected reason |};
                    stage := actionSettled; tabSnapshot := None;
                    returned := Rejected reason |})) as ->.
  { unfold captureStep, captureEvent. by destruct st. }
  split; [|done]. by rewrite returned_final.
Qed.

Lemma captureSnapshot_rejects_witness :
  returned (snd (captureSnapshot full newTab
                   ([cPage (evConsole appLog)] ++
                    cRejects "Error: Target crashed" :: [cPage (evDialog alertDialog)])))
  = Rejected "Error: Target crashed".
Proof.
  apply (captureSnapshot_rejects full newTab [cPage (evConsole appLog)]
           [cPage (evDialog alertDialog)] "Error: Target crashed" eq_refl).
Defined.












(** ** More on the race and on updateTitle *)

Lemma raceEmitted_keeps em r :
  started (raceEmitted em r) = started r ∧
  listener (raceEmitted em r) = listener r ∧
  chained (raceEmitted em r) = chained r ∧
  (awaited r ≠ Pending → awaited (raceEmitted em r) = awaited r).
Proof.
  unfold raceEmitted. destruct em as [[ms called]|]; [|done].
  destruct (decide _); [|done]. simpl. repeat split. intros H. by destruct (awaited r).
Qed.

Lemma awaited_final evs t r :
  awaited r ≠ Pending → awaited (snd (raceRun (t, r) evs)) = awaited r.
Proof.
  revert t r. induction evs as [|ev evs IH]; intros t r H; [done|].
  rewrite raceRun_cons.
  assert (awaited (snd (raceStep (t, r) ev)) = awaited r) as Hs.
  { destruct ev as [e | | reason]; simpl.
    - destruct (dispatch e t) as [t' em]. simpl. by apply raceEmitted_keeps.
    - destruct (started r); [|done]. simpl. by destruct (awaited r).
    - destruct (started r); [|done]. simpl. by destruct (awaited r). }
  destruct (raceStep (t, r) ev) as [t' r']. simpl in Hs. rewrite IH; [done|].
  by rewrite Hs.
Qed.



(** X14. The race starts with no modal state and the action rejects
    before any modal state is pushed. The caller receives the rejection, and
    nothing that happens later changes that. The callback that would remove
    the listener does not run on a rejection: the listener of the race is
    still registered when the race has returned. *)
Theorem race_rejection_reaches_caller (t : Tab) (before : list PageEvent) (reason : string)
    (rest : list Event) :
  _modalStates t = [] →
  (∀ e, e ∈ before → pushes e = None) →
  let s := _raceAgainstModalStates t ((Page <$> before) ++ [ActionRejects reason]) in
  awaited (snd s) = Rejected reason ∧
  listener (snd s) ∈ listeners (fst s) ∧
  awaited (snd (raceRun s rest)) = Rejected reason.
Proof.
  intros Hidle Hquiet. cbv zeta. unfold _raceAgainstModalStates.
  rewrite (raceStart_idle t Hidle), raceRun_app.
  destruct (raceRun_quiet before (once (newListener t) t)
              {| started := true; listener := newListener t; promise := Pending;
                 chained := Pending; awaited := Pending |} Hquiet) as (-> & Hl & _).
  rewrite raceRun_cons. change (raceRun ?x []) with x. simpl raceStep.
  split; [done|]. split.
  - simpl. rewrite Hl. simpl. apply elem_of_app. right. apply list_elem_of_here.
  - by rewrite awaited_final.
Qed.

Lemma race_rejection_reaches_caller_witness :
  let s := _raceAgainstModalStates newTab
             ((Page <$> [evConsole appLog]) ++ [ActionRejects "Error: page closed"]) in
  awaited (snd s) = Rejected "Error: page closed" ∧
  listener (snd s) ∈ listeners (fst s) ∧
  awaited (snd (raceRun s [Page (evDialog alertDialog)])) = Rejected "Error: page closed".
Proof.
  refine (race_rejection_reaches_caller newTab [evConsole appLog] "Error: page closed"
            [Page (evDialog alertDialog)] eq_refl _).
  intros e He. apply list_elem_of_singleton in He as ->. reflexivity.
Defined.

Lemma titleRun_cons s ev evs :
  foldl titleStep s (ev :: evs) = foldl titleStep (titleStep s ev) evs.
Proof. done. Qed.

Lemma titleStep_page s e :
  titleStep s (tPage e)
  = (handle e (fst (fst s)), raceEmitted (snd (dispatch e (fst (fst s)))) (snd (fst s)), snd s).
Proof. destruct s as [[t r] lt]. unfold handle. simpl. by destruct (dispatch e t). Qed.

(** Page events leave the cached title and the action of the race alone. *)
Lemma titleRun_pages es s :
  let s' := foldl titleStep s (tPage <$> es) in
  snd s' = snd s ∧
  started (snd (fst s')) = started (snd (fst s)) ∧
  chained (snd (fst s')) = chained (snd (fst s)) ∧
  (awaited (snd (fst s)) ≠ Pending → awaited (snd (fst s')) = awaited (snd (fst s))).
Proof.
  revert s. induction es as [|e es IH]; intros s; [done|].
  cbv zeta. rewrite fmap_cons, titleRun_cons.
  destruct (IH (titleStep s (tPage e))) as (-> & -> & -> & Haw).
  rewrite titleStep_page in *. simpl in *.
  destruct (raceEmitted_keeps (snd (dispatch e (fst (fst s)))) (snd (fst s)))
    as (-> & _ & -> & Hk).
  repeat split. intros H. rewrite Haw; rewrite Hk; done.
Qed.

(** While no modal state is pushed, page events pass [updateTitle] by. *)
Lemma titleRun_quiet es t r lt :
  (∀ e, e ∈ es → pushes e = None) →
  foldl titleStep (t, r, lt) (tPage <$> es) = (handleAll es t, r, lt).
Proof.
  revert t. induction es as [|e es IH]; intros t Hq; [done|].
  rewrite fmap_cons, handleAll_cons, titleRun_cons, titleStep_page. simpl.
  destruct (dispatch_quiet e t) as (-> & _); [apply Hq; left|]. simpl.
  apply IH. intros e' He'. apply Hq. by right.
Qed.

(** X15. The cached title. When [updateTitle] is called with an empty
    stack and a modal state is pushed before the page has answered, the call
    returns at once with the old title still cached; the action is not
    cancelled, and when the title arrives later it is cached all the same.
    When [updateTitle] is called while the stack holds a modal state, the
    page is not asked and the cached title stays as it is, whatever follows. *)
Theorem updateTitle_cached (t : Tab) (lastTitle : string) :
  (_modalStates t = [] →
   ∀ before e modalState later value,
     (∀ e', e' ∈ before → pushes e' = None) →
     pushes e = Some modalState →
     let interrupted := updateTitle t lastTitle ((tPage <$> before) ++ [tPage e]) in
     let answered := foldl titleStep interrupted ((tPage <$> later) ++ [tResolves value]) in
     titleReturned interrupted = Fulfilled () ∧
     snd interrupted = lastTitle ∧
     snd answered = value ∧
     titleReturned answered = Fulfilled ()) ∧
  (_modalStates t ≠ [] →
   ∀ evs,
     titleReturned (updateTitle t lastTitle evs) = Fulfilled () ∧
     snd (updateTitle t lastTitle evs) = lastTitle).
Proof.
  split.
  - intros Hidle before e modalState later value Hq Hpush. cbv zeta.
    assert (updateTitle t lastTitle ((tPage <$> before) ++ [tPage e])
            = (handle e (handleAll before (once (newListener t) t)),
               {| started := true; listener := newListener t;
                  promise := Fulfilled [modalState]; chained := Pending;
                  awaited := Fulfilled [modalState] |},
               lastTitle)) as ->.
    { unfold updateTitle.
      rewrite (raceStart_idle t Hidle), foldl_app, titleRun_quiet by done.
      rewrite titleRun_cons. change (foldl titleStep ?x []) with x.
      rewrite titleStep_page. simpl fst. simpl snd.
      rewrite (dispatch_push _ _ _ Hpush). simpl snd.
      destruct (raceRun_quiet before (once (newListener t) t)
                  {| started := true; listener := newListener t; promise := Pending;
                     chained := Pending; awaited := Pending |} Hq) as (_ & Hl & _).
      unfold raceEmitted. simpl listener. rewrite Hl.
      by rewrite decide_True by (simpl; apply elem_of_app; right; apply list_elem_of_here). }
    set (s1 := (handle e _, _, lastTitle)).
    split; [done|]. split; [done|].
    rewrite foldl_app. pose proof (titleRun_pages later s1) as Hp. cbv zeta in Hp.
    destruct Hp as (Hlt & Hst & Hch & Haw). specialize (Haw ltac:(done)).
    destruct (foldl titleStep s1 (tPage <$> later)) as [[t2 r2] lt2].
    destruct r2 as [sd l p ch aw]. simpl in Hlt, Hst, Hch, Haw. subst.
    rewrite titleRun_cons. change (foldl titleStep ?x []) with x. done.
  - intros Hne evs. unfold updateTitle.
    assert (raceStart t =
              (t, {| started := false; listener := newListener t; promise := Pending;
                     chained := Pending; awaited := Fulfilled (_modalStates t) |})) as ->.
    { unfold raceStart. by destruct (_modalStates t). }
    set (r := {| started := false |}).
    assert (started r = false ∧ ∃ v, awaited r = Fulfilled v) as Hr by (split; [done | by eexists]).
    clearbody r. clear Hne. revert t r Hr.
    induction evs as [|ev evs IH]; intros t r [Hs [v Hv]].
    + unfold titleReturned. simpl. by rewrite Hv.
    + rewrite titleRun_cons. destruct ev as [e | value | reason].
      * rewrite titleStep_page. simpl fst. simpl snd. apply IH.
        destruct (raceEmitted_keeps (snd (dispatch e t)) r) as (-> & _ & _ & Hk).
        split; [done|]. exists v. rewrite Hk; [done | by rewrite Hv].
      * simpl. rewrite Hs. apply IH. eauto.
      * simpl. rewrite Hs. apply IH. eauto.
Qed.

Lemma updateTitle_cached_witness :
  let interrupted := updateTitle newTab "about:blank"
                       ((tPage <$> [evConsole appLog]) ++ [tPage (evDialog alertDialog)]) in
  let answered := foldl titleStep interrupted ((tPage <$> [evRequest requestA]) ++ [tResolves "Home"]) in
  titleReturned interrupted = Fulfilled () ∧
  snd interrupted = "about:blank" ∧
  snd answered = "Home" ∧
  titleReturned answered = Fulfilled ().
Proof.
  refine (proj1 (updateTitle_cached newTab "about:blank") eq_refl
            [evConsole appLog] (evDialog alertDialog) (dialogState alertDialog)
            [evRequest requestA] "Home" _ eq_refl).
  intros e He. apply list_elem_of_singleton in He as ->. reflexivity.
Defined.

(** ** More on navigate *)

(** X16. [navigate] never fails with an error of its own. When it
    rejects, [page.goto] has rejected with the very same message, no later
    than 3000 ms before. When [page.goto] fulfils, [navigate] fulfils as soon
    as the wait for the load state settles, also when that wait fails or
    times out. *)
Theorem navigate_errors (goto : Outcome unit) (waitForDownload : Outcome nat)
    (loadState : Outcome unit) :
  (∀ at_ message,
     navigate goto waitForDownload loadState = rejects at_ message →
     ∃ failedAt, goto = rejects failedAt message ∧ failedAt ≤ at_ ≤ failedAt + 3000) ∧
  (∀ at_ u ms,
     goto = fulfils at_ u →
     loadState = fulfils ms () ∨ (∃ reason, loadState = rejects ms reason) →
     navigate goto waitForDownload loadState = fulfils (at_ + ms) ()).
Proof.
  split.
  - intros at_ message. unfold navigate.
    destruct goto as [a u | failedAt m |]; [by destruct (catchLogged loadState) | | done].
    destruct (negb (mightBeDownload m)).
    + intros [= <- <-]. exists failedAt. split; [done | lia].
    + destruct waitForDownload as [ms d | ms reason |]; simpl.
      * destruct (Nat.ltb_spec ms (failedAt + 3000)); [done|].
        intros [= <- <-]. exists failedAt. split; [done | lia].
      * destruct (Nat.ltb_spec ms (failedAt + 3000));
          intros [= <- <-]; exists failedAt; (split; [done | lia]).
      * intros [= <- <-]. exists failedAt. split; [done | lia].
  - intros at_ u ms -> [-> | [reason ->]]; done.
Qed.

Lemma navigate_errors_witness :
  navigate (fulfils 800 ()) never (rejects 5000 "Timeout 5000ms exceeded.") = fulfils (800 + 5000) ().
Proof.
  apply (proj2 (navigate_errors (fulfils 800 ()) never (rejects 5000 "Timeout 5000ms exceeded."))
           800 () 5000 eq_refl).
  right. by eexists.
Defined.

(** ** More on the rendering of a record *)

Lemma length_append a b : String.length (a +:+ b) = String.length a + String.length b.
Proof. induction a as [|c a IH]; simpl; [done | by rewrite IH]. Qed.

Lemma substring0_length n s : String.length (Js.substring0 n s) ≤ n.
Proof.
  revert s. induction n as [|n IH]; intros s; simpl; [done|].
  destruct s as [|c s]; simpl; [lia|]. specialize (IH s). lia.
Qed.

(** X17. Outside the JSON path the rendered body is always a string, of
    at most 5000 + 15 characters, whatever the response does: whether its
    text arrives, arrives late, fails or never comes, and whatever the
    resource type and the content type are. *)
Theorem rendered_text_is_bounded (resourceType : string) (rs : Response) :
  ¬ Js.occursIn "application/json" (contentTypeOf rs) →
  ∃ s, renderBody resourceType rs = bodyText s ∧ String.length s ≤ 5000 + 15.
Proof.
  intros Hjson. unfold renderBody.
  destruct (bool_decide _); [|eexists; split; [done | vm_compute; lia]].
  destruct (Js.includes (contentTypeOf rs) "application/json") eqn:Ej.
  { by apply includes_spec in Ej. }
  destruct (_ || _); [|eexists; split; [done | vm_compute; lia]].
  assert (∀ text, String.length
            (if 5000 <? String.length text
             then Js.substring0 5000 text +:+ "... (truncated)" else text) ≤ 5000 + 15) as Hcut.
  { intros text. destruct (Nat.ltb_spec 5000 (String.length text)); [|lia].
    rewrite length_append. pose proof (substring0_length 5000 text).
    change (String.length "... (truncated)") with 15. lia. }
  destruct (withTimeout _ _ _) as [text | reason]; eexists; split; try done.
  vm_compute. lia.
Qed.

Lemma rendered_text_is_bounded_witness :
  ∃ s, renderBody "document" longText = bodyText s ∧ String.length s ≤ 5000 + 15.
Proof.
  apply (rendered_text_is_bounded "document" longText).
  intros H%includes_spec. vm_compute in H. discriminate.
Defined.



(** X19. The error of a record is rendered only while the record is
    failed. After [request] and [requestfailed] with a failure text that is
    not empty, the text is rendered; when a [requestfinished] event for the
    same URL follows, the record keeps the text, but it is not rendered any
    more. *)
Theorem error_rendered_while_failed (t : Tab) (rq rq' rq'' : Request) (f : Failure) :
  rq_url rq' = rq_url rq →
  rq_url rq'' = rq_url rq →
  rq_failure rq' = Some f →
  errorText f ≠ "" →
  let failedT := handleAll [evRequest rq; evRequestFailed rq'] t in
  let finishedT := handle (evRequestFinished rq'') failedT in
  renderedError <$> recordOf (rq_url rq) failedT = Some (Some (errorText f)) ∧
  error <$> recordOf (rq_url rq) finishedT = Some (Some (errorText f)) ∧
  renderedError <$> recordOf (rq_url rq) finishedT = Some None.
Proof.
  intros H' H'' Hf Hne. cbv zeta. unfold handleAll, handle. simpl.
  unfold _handleRequestFinished, _handleRequestFailed.
  rewrite H', H'', !recordOf_mutate, recordOf_handleRequest, Hf. simpl.
  unfold renderedError. simpl. by rewrite decide_False.
Qed.

Lemma error_rendered_while_failed_witness :
  let failedT := handleAll [evRequest requestA; evRequestFailed requestA_failed] newTab in
  let finishedT := handle (evRequestFinished requestA) failedT in
  renderedError <$> recordOf "https://a/x" failedT = Some (Some "net::ERR_CONNECTION_REFUSED") ∧
  error <$> recordOf "https://a/x" finishedT = Some (Some "net::ERR_CONNECTION_REFUSED") ∧
  renderedError <$> recordOf "https://a/x" finishedT = Some None.
Proof.
  refine (error_rendered_while_failed newTab requestA requestA_failed requestA
            {| errorText := "net::ERR_CONNECTION_REFUSED" |} eq_refl eq_refl eq_refl _).
  discriminate.
Defined.

(** ** More on refLocators *)

(** X20. For one reference the batch adds nothing: [refLocator] settles
    when and as the single resolution does, with its result as the first
    element, or with its not-found error. *)
Theorem refLocator_is_single_resolution (resolveSelector : RefParam → Outcome string)
    (asLocator : string → string) (param : RefParam) :
  refLocator resolveSelector asLocator param
  = mapOutcome Some (refLocatorOne resolveSelector asLocator param).
Proof.
  unfold refLocator, refLocators, promiseAll. simpl.
  destruct (refLocatorOne resolveSelector asLocator param) as [ms v | ms reason |]; simpl.
  - by rewrite Nat.max_0_r.
  - done.
  - done.
Qed.

Lemma allFulfilled_times {A} (ps : list (Outcome A)) ms vs :
  allFulfilled ps = Some (ms, vs) →
  (∀ p, p ∈ ps → ∃ m v, p = fulfils m v ∧ m ≤ ms) ∧
  (ps ≠ [] → ∃ v, fulfils ms v ∈ ps).
Proof.
  revert ms vs. induction ps as [|p ps IH]; intros ms vs H; simpl in H.
  - split; [by intros p ?%elem_of_nil | done].
  - destruct p as [m v | |]; [|done..].
    destruct (allFulfilled ps) as [[ms' vs']|] eqn:E; [|done].
    simpl in H. injection H as <- <-. destruct (IH ms' vs' eq_refl) as [Hall Hmax]. split.
    + intros p [-> | Hp]%elem_of_cons.
      * exists m, v. split; [done | lia].
      * destruct (Hall p Hp) as (m' & v' & -> & Hle). exists m', v'. split; [done | lia].
    + intros _. destruct (Nat.max_spec m ms') as [[Hlt ->] | [Hle ->]].
      * destruct ps as [|q ps]; [simpl in E; injection E as <- <-; lia|].
        destruct Hmax as [v' Hv']; [done|]. exists v'. by right.
      * exists v. left.
Qed.

(** X21. A batch that fulfils does so when its slowest resolution does:
    every reference has been resolved by then, one of them just then, and
    there is one result for each reference. *)
Theorem refLocators_fulfils_with_slowest (resolveSelector : RefParam → Outcome string)
    (asLocator : string → string) (params : list RefParam) (ms : nat)
    (located : list Located) :
  refLocators resolveSelector asLocator params = fulfils ms located →
  length located = length params ∧
  (∀ p, p ∈ params → ∃ m sel, resolveSelector p = fulfils m sel ∧ m ≤ ms) ∧
  (params ≠ [] → ∃ p sel, p ∈ params ∧ resolveSelector p = fulfils ms sel).
Proof.
  unfold refLocators, promiseAll.
  destruct (allFulfilled _) as [[ms' vs]|] eqn:E.
  - intros [= -> ->].
    destruct (allFulfilled_times _ _ _ E) as [Hall Hmax].
    assert (∀ p m l, refLocatorOne resolveSelector asLocator p = fulfils m l →
                     ∃ sel, resolveSelector p = fulfils m sel) as Hone.
    { intros p m l. unfold refLocatorOne. destruct (resolveSelector p); [|done..].
      intros [= <- _]. eauto. }
    split; [|split].
    + apply allFulfilled_Some, Forall2_length in E. by rewrite length_fmap in E.
    + intros p Hp. destruct (Hall (refLocatorOne resolveSelector asLocator p))
        as (m & l & Hl & Hle); [apply list_elem_of_fmap; eauto|].
      destruct (Hone _ _ _ Hl) as [sel Hsel]. eauto.
    + intros Hne. destruct Hmax as [l Hl]; [by destruct params|].
      apply list_elem_of_fmap in Hl as (p & Hp & Hin). symmetry in Hp.
      destruct (Hone _ _ _ Hp) as [sel Hsel]. eauto.
  - by destruct (firstRejection _) as [[? ?]|].
Qed.

Lemma refLocators_fulfils_with_slowest_witness :
  let located := [ {| locator := {| selector := "aria-ref=e1"; description := "Submit button" |};
                      resolved := "internal:role=button" |} ] in
  length located = length [paramSubmit] ∧
  (∀ p, p ∈ [paramSubmit] → ∃ m sel, onlyE1 p = fulfils m sel ∧ m ≤ 3) ∧
  ([paramSubmit] ≠ [] → ∃ p sel, p ∈ [paramSubmit] ∧ onlyE1 p = fulfils 3 sel).
Proof.
  exact (refLocators_fulfils_with_slowest onlyE1 id [paramSubmit] 3
           [ {| locator := {| selector := "aria-ref=e1"; description := "Submit button" |};
                resolved := "internal:role=button" |} ] eq_refl).
Defined.

(** X22. A batch hangs with its slowest reference: when the resolution
    of one reference never settles and no reference fails, the batch never
    settles, however many of the others have been resolved. *)
Theorem refLocators_hangs (resolveSelector : RefParam → Outcome string)
    (asLocator : string → string) (params : list RefParam) (stuck : RefParam) :
  stuck ∈ params →
  resolveSelector stuck = never →
  (∀ p ms reason, p ∈ params → resolveSelector p ≠ rejects ms reason) →
  refLocators resolveSelector asLocator params = never.
Proof.
  intros Hin Hstuck Hnone. unfold refLocators, promiseAll.
  destruct (allFulfilled _) as [[ms vs]|] eqn:E.
  - destruct (allFulfilled_times _ _ _ E) as [Hall _].
    destruct (Hall (refLocatorOne resolveSelector asLocator stuck))
      as (m & v & Hv & _); [apply list_elem_of_fmap; eauto|].
    unfold refLocatorOne in Hv. by rewrite Hstuck in Hv.
  - pose proof (firstRejection_correct (refLocatorOne resolveSelector asLocator <$> params)) as Hf.
    destruct (firstRejection _) as [[ms r]|]; [|done].
    destruct Hf as [(p & Hp & Hpin)%list_elem_of_fmap _]. symmetry in Hp.
    apply refLocatorOne_rejects in Hp as [_ [reason Hr]]. by apply Hnone in Hr.
Qed.

Lemma refLocators_hangs_witness :
  refLocators (λ p, if decide (ref p = "e1") then fulfils 3 "internal:role=button" else never)
    id [paramSubmit; paramStale] = never.
Proof.
  apply (refLocators_hangs
           (λ p, if decide (ref p = "e1") then fulfils 3 "internal:role=button" else never)
           id [paramSubmit; paramStale] paramStale).
  - apply list_elem_of_further, list_elem_of_here.
  - reflexivity.
  - intros p ms reason _. by destruct (decide (ref p = "e1")).
Defined.

(** ** Modal states as markdown *)

(** X23. The rendering of the modal states starts with the header and
    has one line for each state of the stack, in the order of the stack; the
    line that says that there is no modal state is there exactly when the
    stack is empty. *)
Theorem renderModalStates_lines (schemaName : Tool → string) (states : list ModalState) :
  head (renderModalStates schemaName states) = Some "### Modal state" ∧
  ("- There is no modal state present" ∈ renderModalStates schemaName states ↔ states = []) ∧
  (states ≠ [] →
   tail (renderModalStates schemaName states)
   = (λ state, "- [" +:+ ms_description state +:+ "]: can be handled by the "
               +:+ dquote +:+ schemaName (ms_clearedBy state) +:+ dquote +:+ " tool")
       <$> states).
Proof.
  unfold renderModalStates. split; [done|]. split.
  - split.
    + intros H. destruct states as [|state states]; [done|]. exfalso.
      rewrite decide_False in H by done.
      apply elem_of_app in H as [H%list_elem_of_singleton | H]; [discriminate|].
      apply elem_of_app in H as [H%elem_of_nil | H]; [done|].
      apply list_elem_of_fmap in H as (s & Hs & _). simpl in Hs. discriminate.
    + intros ->. simpl. right. left.
  - by destruct states.
Qed.

Lemma renderModalStates_lines_witness :
  tail (renderModalStates (λ _, "browser_handle_dialog") [dialogState alertDialog])
  = [ "- [" +:+ ms_description (dialogState alertDialog) +:+ "]: can be handled by the "
        +:+ dquote +:+ "browser_handle_dialog" +:+ dquote +:+ " tool" ].
Proof.
  apply (proj2 (proj2 (renderModalStates_lines (λ _, "browser_handle_dialog")
                         [dialogState alertDialog]))).
  discriminate.
Defined.

(** ** Page errors in the console journal *)

Lemma consoleMessagesOf_push type recent m t :
  typeMatches type m = true →
  consoleMessagesOf type (set_console (_consoleMessages t ++ [m]) recent t)
  = consoleMessagesOf type t ++ [m].
Proof.
  intros H. unfold consoleMessagesOf. simpl.
  rewrite filter_app, filter_cons, filter_nil. by rewrite decide_True by (by rewrite H).
Qed.

(** X24. A page error is journaled as a message of type error. Unless
    the noise filter drops it, it is the last message of [consoleMessages()]
    and of [consoleMessages('error')] once it has been handled; when the
    filter drops it, both are as before. *)
Theorem page_error_is_reported (t : Tab) (errorOrValue : PageError) :
  let m := pageErrorToConsoleMessage errorOrValue in
  let t' := handle (evConsole m) t in
  cm_type m = Some "error" ∧
  (_shouldCaptureConsoleMessage m = true →
     consoleMessagesOf None t' = consoleMessagesOf None t ++ [m] ∧
     consoleMessagesOf (Some "error") t' = consoleMessagesOf (Some "error") t ++ [m]) ∧
  (_shouldCaptureConsoleMessage m = false →
     consoleMessagesOf None t' = consoleMessagesOf None t ∧
     consoleMessagesOf (Some "error") t' = consoleMessagesOf (Some "error") t).
Proof.
  cbv zeta. split; [by destruct errorOrValue|].
  unfold handle. simpl. unfold _handleConsoleMessage.
  split; intros ->; simpl; [|done].
  split; apply consoleMessagesOf_push; [done|]. by destruct errorOrValue.
Qed.

Lemma page_error_is_reported_witness :
  let m := pageErrorToConsoleMessage (thrownError "x is not defined" (Some "")) in
  consoleMessagesOf None (handle (evConsole m) newTab) = [] ++ [m] ∧
  consoleMessagesOf (Some "error") (handle (evConsole m) newTab) = [] ++ [m].
Proof.
  apply (proj1 (proj2 (page_error_is_reported newTab (thrownError "x is not defined" (Some ""))))).
  reflexivity.
Defined.
